(** * Windows machine config operator: instance state, annotation patches,
      SSH transport, upgrade gate and trust-bundle convergence

    A shallow embedding of the Go sources

    - [pkg/instances/instances.go]   (module [Instances]),
    - the [annotations] package      (module [Annotations]),
    - the [windows] SSH connectivity (module [Windows]),
    - the [envvar] package           (module [Envvar]),
    - the wait of the kubelet CA rotation test (module [E2E]),
    - the storage part of the vSphere test provider (module [VSphere]),

    together with the two components of which only the tests are part of the
    sources: the upgrade gate ([controllers_test.go], module [UpgradeGate])
    and the kubelet CA bundle convergence ([certificates_test.go], module
    [Certificates]).

    Go maps are [gmap]s, Go strings are byte strings ([string]), a nilable
    pointer is an [option], and a Go [(value, error)] result is a pair whose
    second component is [None] for a nil error. *)

From Stdlib Require Import Ascii String List Bool Arith Lia.
From stdpp Require Import base option list gmap strings.

Local Open Scope string_scope.

(** ** Kubernetes objects *)

(** The part of [core.Node] the operator reads: object metadata (name,
    annotations and labels) and the attached volumes of the node status. *)
Record core_Node : Type := mkNode {
  Name : string;
  Annotations : gmap string string;
  Labels : gmap string string;
  VolumesAttached : list string
}.

(** [v, present := m[k]]: the comma-ok lookup of a Go map. A missing key
    yields the zero value of the value type. *)
Definition go_lookup (m : gmap string string) (k : string) : string * bool :=
  match m !! k with
  | Some v => (v, true)
  | None => ("", false)
  end.

(** The quote and the backslash, by their ASCII codes. *)
Definition quote : ascii := ascii_of_nat 34.
Definition backslash : ascii := ascii_of_nat 92.

(** ** Errors

    Go's [error] values, closed over the ones the modelled packages build:
    [errors.New] and [fmt.Errorf] without a wrapped cause, [fmt.Errorf] with
    a [%w] cause, the [*AuthErr] of the [windows] package and
    [wait.ErrWaitTimeout]. *)
Inductive error : Type :=
  | errors_New (msg : string)
  | Errorf_w (msg : string) (cause : error)
  | AuthErr (err : string)
  | ErrWaitTimeout.

(** [errors.As(err, &authErr)] for a target of type [*AuthErr]: the chain of
    wrapped causes is searched for an [AuthErr]. *)
Fixpoint errors_As_AuthErr (e : error) : bool :=
  match e with
  | AuthErr _ => true
  | Errorf_w _ cause => errors_As_AuthErr cause
  | errors_New _ | ErrWaitTimeout => false
  end.

(** [errors.Is(err, wait.ErrWaitTimeout)]. *)
Fixpoint errors_Is_ErrWaitTimeout (e : error) : bool :=
  match e with
  | ErrWaitTimeout => true
  | Errorf_w _ cause => errors_Is_ErrWaitTimeout cause
  | errors_New _ | AuthErr _ => false
  end.

(** Errors are compared by value. *)
Fixpoint error_eqb (a b : error) : bool :=
  match a, b with
  | errors_New m, errors_New n => String.eqb m n
  | Errorf_w m cause, Errorf_w n cause' => String.eqb m n && error_eqb cause cause'
  | AuthErr m, AuthErr n => String.eqb m n
  | ErrWaitTimeout, ErrWaitTimeout => true
  | _, _ => false
  end.

(** [errors.Is(err, target)]: [target] is looked for along the chain of
    wrapped causes of [err]. *)
Fixpoint errors_Is (err target : error) : bool :=
  error_eqb err target ||
  match err with
  | Errorf_w _ cause => errors_Is cause target
  | _ => false
  end.

Lemma error_eqb_refl (e : error) : error_eqb e e = true.
Proof.
  induction e as [m|m cause IH|m|]; cbn; rewrite ?String.eqb_refl; auto.
Qed.

(** ** pkg/instances *)

Module Instances.

(** [InstanceInfo] represents a host that is meant to be joined to the
    cluster. [Node] is the optional pointer to the associated Node object. *)
Record InstanceInfo : Type := mkInstanceInfo {
  Address : string;
  Username : string;
  NewHostname : string;
  Node : option core_Node
}.

Definition NewInstanceInfo (address username newHostname : string)
    (node : option core_Node) : InstanceInfo :=
  {| Address := address; Username := username;
     NewHostname := newHostname; Node := node |}.

Section Version.

(** [metadata.VersionAnnotation] and the result of [version.Get()]: two
    strings fixed for one running controller. *)
Variable VersionAnnotation : string.
Variable version_Get : string.

(** [UpToDate] returns true if the instance was configured by the current
    WMCO version. *)
Definition UpToDate (i : InstanceInfo) : bool :=
  match Node i with
  | None => false
  | Some node =>
      let '(versionAnnotation, present) :=
        go_lookup (Annotations node) VersionAnnotation in
      present && String.eqb versionAnnotation version_Get
  end.

(** [UpgradeRequired] returns true if the instance needs to go through the
    upgrade process. *)
Definition UpgradeRequired (i : InstanceInfo) : bool :=
  if UpToDate i then false
  else
    match Node i with
    | None => false
    | Some node =>
        let '(_, present) := go_lookup (Annotations node) VersionAnnotation in
        if negb present then false else true
    end.

(** The remaining lifecycle case of the specification: the instance has no
    Node object, or its Node carries no version annotation. *)
Definition needsFirstTimeConfiguration (i : InstanceInfo) : bool :=
  match Node i with
  | None => true
  | Some node => bool_decide (Annotations node !! VersionAnnotation = None)
  end.

Lemma go_lookup_Some (m : gmap string string) (k v : string) :
  m !! k = Some v -> go_lookup m k = (v, true).
Proof. intros H. unfold go_lookup. now rewrite H. Qed.

Lemma go_lookup_None (m : gmap string string) (k : string) :
  m !! k = None -> go_lookup m k = ("", false).
Proof. intros H. unfold go_lookup. now rewrite H. Qed.

Lemma UpToDate_nil (i : InstanceInfo) : Node i = None -> UpToDate i = false.
Proof. intros H. unfold UpToDate. now rewrite H. Qed.

Lemma UpToDate_node (i : InstanceInfo) (node : core_Node) :
  Node i = Some node ->
  UpToDate i = true <-> Annotations node !! VersionAnnotation = Some version_Get.
Proof.
  intros Hn. unfold UpToDate. rewrite Hn.
  destruct (Annotations node !! VersionAnnotation) as [v|] eqn:Hv.
  - rewrite (go_lookup_Some _ _ _ Hv). cbn.
    rewrite String.eqb_eq. split; congruence.
  - rewrite (go_lookup_None _ _ Hv). cbn. split; discriminate.
Qed.

Lemma UpgradeRequired_node (i : InstanceInfo) (node : core_Node) :
  Node i = Some node ->
  UpgradeRequired i = true <->
  exists v, Annotations node !! VersionAnnotation = Some v /\ v <> version_Get.
Proof.
  intros Hn. unfold UpgradeRequired, UpToDate. rewrite Hn.
  destruct (Annotations node !! VersionAnnotation) as [v|] eqn:Hv.
  - rewrite (go_lookup_Some _ _ _ Hv). cbn.
    destruct (String.eqb_spec v version_Get) as [He|He]; cbn.
    + split; [discriminate|]. intros (w & Hw & Hne). congruence.
    + split; [|reflexivity]. intros _. exists v. split; [reflexivity|assumption].
  - rewrite (go_lookup_None _ _ Hv). cbn.
    split; [discriminate|]. intros (w & Hw & _). discriminate.
Qed.

Lemma UpgradeRequired_nil (i : InstanceInfo) :
  Node i = None -> UpgradeRequired i = false.
Proof. intros H. unfold UpgradeRequired, UpToDate. now rewrite H. Qed.

(** C1. [UpToDate] is false whenever the instance has no Node; for an
    instance with a Node it is true exactly when the version annotation is
    present on the Node and its value is the running controller version. *)
Theorem UpToDate_spec (i : InstanceInfo) :
  (Node i = None -> UpToDate i = false) /\
  (forall node, Node i = Some node ->
     (UpToDate i = true <->
      exists v, Annotations node !! VersionAnnotation = Some v /\ v = version_Get)).
Proof.
  split; [apply UpToDate_nil|].
  intros node Hn. rewrite (UpToDate_node i node Hn). split.
  - intros H. exists version_Get. split; [assumption|reflexivity].
  - intros (v & Hv & ->). assumption.
Qed.

(** C2. [UpgradeRequired] is false when [UpToDate] holds, false when the
    instance has no Node, false when the Node has no version annotation, and
    true in every remaining case, that is exactly when the annotation is
    present with a value other than the running controller version. *)
Theorem UpgradeRequired_spec (i : InstanceInfo) :
  (UpToDate i = true -> UpgradeRequired i = false) /\
  (Node i = None -> UpgradeRequired i = false) /\
  (forall node, Node i = Some node ->
     Annotations node !! VersionAnnotation = None -> UpgradeRequired i = false) /\
  (forall node, UpToDate i = false -> Node i = Some node ->
     Annotations node !! VersionAnnotation <> None -> UpgradeRequired i = true) /\
  (forall node v, Node i = Some node ->
     Annotations node !! VersionAnnotation = Some v -> v <> version_Get ->
     UpgradeRequired i = true).
Proof.
  repeat split.
  - intros H. unfold UpgradeRequired. now rewrite H.
  - apply UpgradeRequired_nil.
  - intros node Hn Hv.
    destruct (UpgradeRequired i) eqn:E; [|reflexivity].
    apply (UpgradeRequired_node i node Hn) in E as (w & Hw & _). congruence.
  - intros node Hu Hn Hv. apply (UpgradeRequired_node i node Hn).
    destruct (Annotations node !! VersionAnnotation) as [v|] eqn:E; [|congruence].
    exists v. split; [reflexivity|]. intros ->.
    apply (UpToDate_node i node Hn) in E. congruence.
  - intros node v Hn Hv Hne. apply (UpgradeRequired_node i node Hn).
    exists v. split; assumption.
Qed.

(** C8. [UpToDate] and [UpgradeRequired] are never both true, and every
    instance is in exactly one of the three cases: up to date, upgrade
    required, or in need of first-time configuration (no Node, or no version
    annotation on the Node). *)
Theorem lifecycle_partition (i : InstanceInfo) :
  ~ (UpToDate i = true /\ UpgradeRequired i = true) /\
  ((UpToDate i = true /\ UpgradeRequired i = false /\
      needsFirstTimeConfiguration i = false) \/
   (UpToDate i = false /\ UpgradeRequired i = true /\
      needsFirstTimeConfiguration i = false) \/
   (UpToDate i = false /\ UpgradeRequired i = false /\
      needsFirstTimeConfiguration i = true)) /\
  (needsFirstTimeConfiguration i = true <->
   Node i = None \/
   exists node, Node i = Some node /\ Annotations node !! VersionAnnotation = None).
Proof.
  unfold UpgradeRequired, UpToDate, needsFirstTimeConfiguration, go_lookup.
  destruct (Node i) as [node|]; cbn.
  - destruct (Annotations node !! VersionAnnotation) as [v|] eqn:Hv; cbn.
    + destruct (String.eqb v version_Get); cbn;
        (split; [intros [? ?]; discriminate|]);
        (split; [auto|]);
        (split; [discriminate|]);
        intros [?|(n & Hn & Hnone)]; [discriminate| |discriminate|];
        injection Hn as <-; congruence.
    + split; [intros [? ?]; discriminate|].
      split; [auto|].
      split; [|reflexivity]. intros _. right. exists node. auto.
  - split; [intros [? ?]; discriminate|].
    split; [auto|]. split; auto.
Qed.

End Version.

(** *** Scenarios: a controller of version 5.0.0 *)

Definition exampleAnnotation : string := "windowsmachineconfig.openshift.io/version".

Definition nodeConfiguredBy (v : string) : core_Node :=
  mkNode "win-1" {[ exampleAnnotation := v ]} ∅ [].

Definition unconfiguredNode : core_Node := mkNode "win-2" ∅ ∅ [].

Definition instanceOf (node : option core_Node) : InstanceInfo :=
  NewInstanceInfo "10.0.0.5" "Administrator" "" node.

(** C1 at three instances: no Node, a Node configured by the running
    version, and a Node without the annotation. *)
Lemma UpToDate_spec_witness :
  UpToDate exampleAnnotation "5.0.0" (instanceOf None) = false /\
  UpToDate exampleAnnotation "5.0.0" (instanceOf (Some (nodeConfiguredBy "5.0.0"))) = true /\
  UpToDate exampleAnnotation "5.0.0" (instanceOf (Some unconfiguredNode)) <> true.
Proof.
  split; [|split].
  - apply (proj1 (UpToDate_spec exampleAnnotation "5.0.0" (instanceOf None))).
    reflexivity.
  - apply (proj2 (UpToDate_spec exampleAnnotation "5.0.0"
                    (instanceOf (Some (nodeConfiguredBy "5.0.0")))) _ eq_refl).
    exists "5.0.0". split; [vm_compute; reflexivity|reflexivity].
  - intros H.
    apply (proj2 (UpToDate_spec exampleAnnotation "5.0.0"
                    (instanceOf (Some unconfiguredNode))) _ eq_refl) in H.
    destruct H as (v & Hv & _). vm_compute in Hv. discriminate.
Defined.

(** C2 at four instances: up to date, no Node, no annotation, and a Node
    configured by version 4.0.0. *)
Lemma UpgradeRequired_spec_witness :
  UpgradeRequired exampleAnnotation "5.0.0"
    (instanceOf (Some (nodeConfiguredBy "5.0.0"))) = false /\
  UpgradeRequired exampleAnnotation "5.0.0" (instanceOf None) = false /\
  UpgradeRequired exampleAnnotation "5.0.0" (instanceOf (Some unconfiguredNode)) = false /\
  UpgradeRequired exampleAnnotation "5.0.0"
    (instanceOf (Some (nodeConfiguredBy "4.0.0"))) = true.
Proof.
  split; [|split; [|split]].
  - apply (proj1 (UpgradeRequired_spec exampleAnnotation "5.0.0"
             (instanceOf (Some (nodeConfiguredBy "5.0.0"))))).
    vm_compute; reflexivity.
  - apply (proj1 (proj2 (UpgradeRequired_spec exampleAnnotation "5.0.0"
             (instanceOf None)))).
    reflexivity.
  - apply (proj1 (proj2 (proj2 (UpgradeRequired_spec exampleAnnotation "5.0.0"
             (instanceOf (Some unconfiguredNode))))) unconfiguredNode eq_refl).
    vm_compute; reflexivity.
  - apply (proj2 (proj2 (proj2 (proj2 (UpgradeRequired_spec exampleAnnotation "5.0.0"
             (instanceOf (Some (nodeConfiguredBy "4.0.0"))))))) _ "4.0.0" eq_refl).
    + vm_compute; reflexivity.
    + discriminate.
Defined.

(** *** The version annotation across controller versions *)

(** X4. An instance requires an upgrade under the running version exactly when
    it is up to date for some other version: every instance configured by a
    version other than the running one, and no other, goes through the
    upgrade. *)
Theorem UpgradeRequired_iff_other_version (VersionAnnotation current : string)
    (i : InstanceInfo) :
  UpgradeRequired VersionAnnotation current i = true <->
  exists v, v <> current /\ UpToDate VersionAnnotation v i = true.
Proof.
  destruct (Node i) as [node|] eqn:Hn.
  - rewrite (UpgradeRequired_node _ _ i node Hn). split.
    + intros (v & Hv & Hne). exists v. split; [assumption|].
      now apply (UpToDate_node _ _ i node Hn).
    + intros (v & Hne & Hv). exists v. split; [|assumption].
      now apply (UpToDate_node _ _ i node Hn).
  - rewrite (UpgradeRequired_nil _ _ i Hn). split; [discriminate|].
    intros (v & _ & Hv). now rewrite (UpToDate_nil _ _ i Hn) in Hv.
Qed.

End Instances.

(** ** The annotations package *)

Module Annotations.

(** [strings.Replace(s, old, new, -1)] for a non-empty [old]: every
    non-overlapping occurrence of [old], scanning from the left, is replaced
    by [new]. [skip] counts the bytes of a matched occurrence that are still
    to be dropped. *)
Fixpoint Replace_from (old new : string) (skip : nat) (s : string) : string :=
  match s with
  | EmptyString => EmptyString
  | String c rest =>
      match skip with
      | S k => Replace_from old new k rest
      | O =>
          if String.prefix old s
          then new ++ Replace_from old new (String.length old - 1) rest
          else String c (Replace_from old new 0 rest)
      end
  end.

Definition Replace (s old new : string) : string := Replace_from old new 0 s.

(** [formatPathValue] formats the path value specifying which attribute a
    JSON Patch operation should be applied to. The slash of the annotation
    key is escaped so that it is not read as a directory of the path. *)
Definition formatPathValue (key : string) : string :=
  let escapedKey := Replace key "/" "~1" in
  "/metadata/annotations/" ++ escapedKey.

(** Modelled from the spec: [patch.JSONPatch] and [patch.NewJSONPatch] of
    [pkg/patch], which is not among the sources. A patch document is an
    ordered sequence of (operation, path, value) triples. *)
Record JSONPatch : Type := NewJSONPatch {
  Op : string;
  Path : string;
  Value : string
}.

(** *** encoding/json on a slice of patches

    [json.Marshal] of a slice of structs whose fields are strings cannot
    fail. Strings are written between quotes. Of the bytes below 0x80 the
    quote and the backslash are escaped by a backslash, backspace, form
    feed, newline, carriage return and tab are written in their short forms
    (the first two since Go 1.22), and the remaining control bytes and the
    HTML bytes [<], [>], [&] as [\u00XX]. A valid UTF-8 encoding of several
    bytes is copied, except for the line and paragraph separators U+2028 and
    U+2029, which are escaped; a byte that starts no valid encoding is
    replaced by [\ufffd]. *)

Definition hexDigit (n : nat) : ascii :=
  nth n (list_ascii_of_string "0123456789abcdef") "0"%char.

Definition jsonEscapeByte (c : ascii) : string :=
  let n := nat_of_ascii c in
  if Nat.eqb n 34 || Nat.eqb n 92 then String backslash (String c EmptyString)
  else if Nat.eqb n 8 then "\b"
  else if Nat.eqb n 12 then "\f"
  else if Nat.eqb n 10 then "\n"
  else if Nat.eqb n 13 then "\r"
  else if Nat.eqb n 9 then "\t"
  else if Nat.ltb n 32 || Nat.eqb n 60 || Nat.eqb n 62 || Nat.eqb n 38
  then "\u00" ++ String (hexDigit (n / 16)) (String (hexDigit (n mod 16)) EmptyString)
  else String c EmptyString.

Definition inRange (lo hi : nat) (c : ascii) : bool :=
  Nat.leb lo (nat_of_ascii c) && Nat.leb (nat_of_ascii c) hi.

(** [utf8.DecodeRuneInString] on a string that starts with a byte from 0x80
    on: the number of bytes of the valid encoding at its head, or 0 when
    there is none. *)
Definition runeSize (s : string) : nat :=
  match s with
  | String b0 (String b1 rest1) =>
      if inRange 194 223 b0
      then (if inRange 128 191 b1 then 2 else 0)
      else
        match rest1 with
        | String b2 rest2 =>
            if (inRange 224 224 b0 && inRange 160 191 b1
                || inRange 225 236 b0 && inRange 128 191 b1
                || inRange 237 237 b0 && inRange 128 159 b1
                || inRange 238 239 b0 && inRange 128 191 b1)
               && inRange 128 191 b2
            then 3
            else
              match rest2 with
              | String b3 _ =>
                  if (inRange 240 240 b0 && inRange 144 191 b1
                      || inRange 241 243 b0 && inRange 128 191 b1
                      || inRange 244 244 b0 && inRange 128 143 b1)
                     && inRange 128 191 b2 && inRange 128 191 b3
                  then 4
                  else 0
              | EmptyString => 0
              end
        | EmptyString => 0
        end
  | _ => 0
  end.

(** The last hex digit of U+2028 or U+2029 when the string starts with the
    encoding of one of them. *)
Definition lineSeparator (s : string) : option ascii :=
  match s with
  | String b0 (String b1 (String b2 _)) =>
      if inRange 226 226 b0 && inRange 128 128 b1
      then if inRange 168 168 b2 then Some "8"%char
           else if inRange 169 169 b2 then Some "9"%char
           else None
      else None
  | _ => None
  end.

(** The escaping of a string. [copy] counts the bytes of a valid encoding
    that are still to be copied, [drop] those of an escaped separator that
    are still to be left out. *)
Fixpoint jsonEscapeFrom (copy drop : nat) (s : string) : string :=
  match s with
  | EmptyString => EmptyString
  | String c rest =>
      match copy, drop with
      | S k, _ => String c (jsonEscapeFrom k drop rest)
      | O, S k => jsonEscapeFrom 0 k rest
      | O, O =>
          if Nat.ltb (nat_of_ascii c) 128
          then jsonEscapeByte c ++ jsonEscapeFrom 0 0 rest
          else
            match runeSize s with
            | O => "\ufffd" ++ jsonEscapeFrom 0 0 rest
            | S k =>
                match lineSeparator s with
                | Some digit =>
                    "\u202" ++ String digit (jsonEscapeFrom 0 k rest)
                | None => String c (jsonEscapeFrom k 0 rest)
                end
            end
      end
  end.

Definition jsonEscape (s : string) : string := jsonEscapeFrom 0 0 s.

Definition jsonString (s : string) : string :=
  String quote (jsonEscape s ++ String quote EmptyString).

Definition jsonPatchObject (p : JSONPatch) : string :=
  "{" ++ jsonString "op" ++ ":" ++ jsonString (Op p) ++ ","
      ++ jsonString "path" ++ ":" ++ jsonString (Path p) ++ ","
      ++ jsonString "value" ++ ":" ++ jsonString (Value p) ++ "}".

Fixpoint jsonElements (ps : list JSONPatch) : string :=
  match ps with
  | [] => EmptyString
  | [p] => jsonPatchObject p
  | p :: rest => jsonPatchObject p ++ "," ++ jsonElements rest
  end.

(** A nil slice is marshalled as [null], any other slice as an array. *)
Definition json_Marshal (ps : list JSONPatch) : option string * option error :=
  match ps with
  | [] => (Some "null", None)
  | _ => (Some ("[" ++ jsonElements ps ++ "]"), None)
  end.

(** *** Reading a patch document

    A reader of the documents above, to state what a document holds: it
    reads an array of objects with the members op, path and value, in this
    order and without white space, and undoes the escaping of their
    strings. *)

Definition hexValue (c : ascii) : option nat :=
  let n := nat_of_ascii c in
  if Nat.leb 48 n && Nat.leb n 57 then Some (n - 48)
  else if Nat.leb 97 n && Nat.leb n 102 then Some (n - 87)
  else if Nat.leb 65 n && Nat.leb n 70 then Some (n - 55)
  else None.

(** The UTF-8 encoding of a code point below 0x10000. *)
Definition utf8Encode (n : nat) : string :=
  if Nat.ltb n 128 then String (ascii_of_nat n) EmptyString
  else if Nat.ltb n 2048
  then String (ascii_of_nat (192 + n / 64))
         (String (ascii_of_nat (128 + n mod 64)) EmptyString)
  else String (ascii_of_nat (224 + n / 4096))
         (String (ascii_of_nat (128 + (n / 64) mod 64))
            (String (ascii_of_nat (128 + n mod 64)) EmptyString)).

(** The byte a short escape stands for. *)
Definition shortEscape (c : ascii) : option ascii :=
  let n := nat_of_ascii c in
  if Nat.eqb n 34 || Nat.eqb n 92 || Nat.eqb n 47 then Some c
  else if Nat.eqb n 98 then Some (ascii_of_nat 8)
  else if Nat.eqb n 102 then Some (ascii_of_nat 12)
  else if Nat.eqb n 110 then Some (ascii_of_nat 10)
  else if Nat.eqb n 114 then Some (ascii_of_nat 13)
  else if Nat.eqb n 116 then Some (ascii_of_nat 9)
  else None.

Definition prepend (pre : string) (r : option (string * string))
    : option (string * string) :=
  match r with
  | Some (v, rest) => Some (pre ++ v, rest)
  | None => None
  end.

(** The string that ends at the first quote that is not escaped, and what
    follows that quote. *)
Fixpoint readString (s : string) : option (string * string) :=
  match s with
  | EmptyString => None
  | String c rest =>
      if Ascii.eqb c quote then Some (EmptyString, rest)
      else if Ascii.eqb c backslash then
        match rest with
        | String e rest1 =>
            match shortEscape e with
            | Some d => prepend (String d EmptyString) (readString rest1)
            | None =>
                if Ascii.eqb e "u" then
                  match rest1 with
                  | String h3 (String h2 (String h1 (String h0 rest2))) =>
                      match hexValue h3, hexValue h2, hexValue h1, hexValue h0 with
                      | Some d3, Some d2, Some d1, Some d0 =>
                          prepend (utf8Encode (((d3 * 16 + d2) * 16 + d1) * 16 + d0))
                                  (readString rest2)
                      | _, _, _, _ => None
                      end
                  | _ => None
                  end
                else None
            end
        | EmptyString => None
        end
      else prepend (String c EmptyString) (readString rest)
  end.

(** What follows [lit] at the head of [s]. *)
Fixpoint expect (lit s : string) : option string :=
  match lit with
  | EmptyString => Some s
  | String a lit' =>
      match s with
      | String b s' => if Ascii.eqb a b then expect lit' s' else None
      | EmptyString => None
      end
  end.

(** The head of a member: its name between quotes, the colon and the
    quote that opens its value. *)
Definition memberHead (name : string) : string :=
  String quote (name ++ String quote (":" ++ String quote EmptyString)).

Definition readObject (s : string) : option (JSONPatch * string) :=
  s1 ← expect ("{" ++ memberHead "op") s;
  '(op, s2) ← readString s1;
  s3 ← expect ("," ++ memberHead "path") s2;
  '(path, s4) ← readString s3;
  s5 ← expect ("," ++ memberHead "value") s4;
  '(value, s6) ← readString s5;
  s7 ← expect "}" s6;
  Some (NewJSONPatch op path value, s7).

Fixpoint readElements (fuel : nat) (s : string) : option (list JSONPatch) :=
  match fuel with
  | O => None
  | S fuel' =>
      match readObject s with
      | Some (p, String c rest) =>
          if Ascii.eqb c "]" then
            match rest with
            | EmptyString => Some [p]
            | _ => None
            end
          else if Ascii.eqb c "," then cons p <$> readElements fuel' rest
          else None
      | _ => None
      end
  end.

(** The operations a patch document holds. *)
Definition decodePatches (document : string) : option (list JSONPatch) :=
  match document with
  | String c rest =>
      if Ascii.eqb c "[" then readElements (String.length document) rest else None
  | EmptyString => None
  end.

(** Whether a string holds bytes below 0x80 only. *)
Fixpoint isASCII (s : string) : bool :=
  match s with
  | EmptyString => true
  | String c rest => Nat.ltb (nat_of_ascii c) 128 && isASCII rest
  end.

(** [generateAnnotationPatch] creates a patch applying the given operation
    onto each given annotation key and value. The Go loop ranges over the map
    in an unspecified order; [map_to_list] fixes one. *)
Definition generateAnnotationPatch (op : string) (annotations : gmap string string)
    : option string * option error :=
  if Nat.eqb (size annotations) 0
  then (None, Some (errors_New "annotations to format cannot be empty or nil"))
  else
    let patches :=
      foldl (fun (patches : list JSONPatch) '(key, value) =>
               (patches ++ [NewJSONPatch op (formatPathValue key) value])%list)
            [] (map_to_list annotations) in
    json_Marshal patches.

(** The patches of the loop above: one per entry of the map. *)
Definition patchOf (op : string) (kv : string * string) : JSONPatch :=
  NewJSONPatch op (formatPathValue kv.1) kv.2.

(** [GenerateAddPatch] creates the operations that add all given
    annotations; an add overwrites the value of an existing annotation. *)
Definition GenerateAddPatch (annotations : gmap string string)
    : option string * option error :=
  generateAnnotationPatch "add" annotations.

(** [GenerateRemovePatch] creates the operations that remove all given
    annotations from an object. *)
Definition GenerateRemovePatch (annotations : list string)
    : option string * option error :=
  let annotationMap :=
    foldl (fun (m : gmap string string) annotation => <[annotation := ""]> m)
          ∅ annotations in
  generateAnnotationPatch "remove" annotationMap.

(** The operations of a remove patch: one per distinct key. *)
Definition removePatches (annotations : list string) : list JSONPatch :=
  map (fun key => NewJSONPatch "remove" (formatPathValue key) "")
      (elements (list_to_set annotations : gset string)).

(** A byte-wise reading of the escaping: each slash becomes the two bytes
    [~1], every other byte is kept. *)
Fixpoint escapeSeparators (key : string) : string :=
  match key with
  | EmptyString => EmptyString
  | String c rest =>
      if Ascii.eqb c "/" then String "~" (String "1" (escapeSeparators rest))
      else String c (escapeSeparators rest)
  end.

(** Whether a path segment holds a separator byte. *)
Fixpoint hasSeparator (segment : string) : bool :=
  match segment with
  | EmptyString => false
  | String c rest => Ascii.eqb c "/" || hasSeparator rest
  end.

Lemma Replace_separator (key : string) :
  Replace key "/" "~1" = escapeSeparators key.
Proof.
  unfold Replace. induction key as [|c rest IH]; [reflexivity|].
  cbn [Replace_from String.prefix escapeSeparators].
  destruct (ascii_dec "/" c) as [<-|Hne].
  - replace (String.prefix "" rest) with true by (now destruct rest).
    cbn. now rewrite IH.
  - destruct (Ascii.eqb_spec c "/") as [->|_]; [congruence|].
    now rewrite IH.
Qed.

Lemma escapeSeparators_clean (key : string) :
  hasSeparator (escapeSeparators key) = false.
Proof.
  induction key as [|c rest IH]; [reflexivity|].
  cbn [escapeSeparators].
  destruct (Ascii.eqb c "/") eqn:E; cbn [hasSeparator].
  - exact IH.
  - now rewrite E, IH.
Qed.

Lemma foldl_snoc_patches (op : string) (kvs : list (string * string))
    (acc : list JSONPatch) :
  foldl (fun (patches : list JSONPatch) '(key, value) =>
           (patches ++ [NewJSONPatch op (formatPathValue key) value])%list)
        acc kvs
  = (acc ++ map (patchOf op) kvs)%list.
Proof.
  revert acc. induction kvs as [|[k v] kvs IH]; intros acc; cbn.
  - now rewrite app_nil_r.
  - rewrite IH. now rewrite <- app_assoc.
Qed.

Lemma generateAnnotationPatch_empty (op : string) :
  generateAnnotationPatch op ∅
  = (None, Some (errors_New "annotations to format cannot be empty or nil")).
Proof. unfold generateAnnotationPatch. now rewrite map_size_empty. Qed.

Lemma generateAnnotationPatch_nonempty (op : string) (m : gmap string string) :
  m <> ∅ ->
  generateAnnotationPatch op m
  = json_Marshal (map (patchOf op) (map_to_list m)).
Proof.
  intros Hm. unfold generateAnnotationPatch.
  destruct (Nat.eqb_spec (size m) 0) as [E|_].
  - apply map_size_empty_iff in E. contradiction.
  - now rewrite foldl_snoc_patches.
Qed.

Lemma annotationMap_nonempty (annotations : list string) (m : gmap string string) :
  m <> ∅ ->
  foldl (fun (m : gmap string string) annotation => <[annotation := ""]> m)
        m annotations <> ∅.
Proof.
  revert m. induction annotations as [|a l IH]; intros m Hm; cbn; [assumption|].
  apply IH. apply insert_non_empty.
Qed.

(** The map built by [GenerateRemovePatch]: every key of the list, once,
    with an empty value. *)
Lemma annotationMap_set (annotations : list string) (X : gset string) :
  foldl (fun (m : gmap string string) annotation => <[annotation := ""]> m)
        (gset_to_gmap "" X) annotations
  = gset_to_gmap "" (list_to_set annotations ∪ X).
Proof.
  revert X. induction annotations as [|a l IH]; intros X; cbn [foldl].
  - now rewrite list_to_set_nil, (left_id_L ∅ (∪)).
  - rewrite <- gset_to_gmap_union_singleton, IH. f_equal.
    rewrite list_to_set_cons, (comm_L (∪) {[ a ]} (list_to_set l)).
    now rewrite <- (assoc_L (∪)).
Qed.

Lemma append_String (x : ascii) (a b : string) :
  String x a ++ b = String x (a ++ b).
Proof. reflexivity. Qed.

Lemma append_Empty (b : string) : EmptyString ++ b = b.
Proof. reflexivity. Qed.

Lemma append_assoc (a b c : string) : (a ++ b) ++ c = a ++ (b ++ c).
Proof.
  induction a as [|x a IH]; [reflexivity|].
  rewrite !append_String. now rewrite IH.
Qed.

Lemma length_append (a b : string) :
  String.length (a ++ b) = String.length a + String.length b.
Proof.
  induction a as [|x a IH]; [reflexivity|].
  rewrite append_String. cbn [String.length Nat.add]. now rewrite IH.
Qed.

Lemma expect_append (lit s : string) : expect lit (lit ++ s) = Some s.
Proof.
  induction lit as [|a lit IH]; [reflexivity|].
  rewrite append_String. cbn [expect]. now rewrite Ascii.eqb_refl.
Qed.

Lemma jsonEscape_cons (c : ascii) (s : string) :
  Nat.ltb (nat_of_ascii c) 128 = true ->
  jsonEscape (String c s) = jsonEscapeByte c ++ jsonEscape s.
Proof. intros H. unfold jsonEscape. cbn [jsonEscapeFrom]. now rewrite H. Qed.

(** Reading back the escape of one byte below 0x80. *)
Lemma readString_byte (c : ascii) (tail : string) (v rest : string) :
  Nat.ltb (nat_of_ascii c) 128 = true ->
  readString tail = Some (v, rest) ->
  readString (jsonEscapeByte c ++ tail) = Some (String c v, rest).
Proof.
  intros Hc Ht.
  destruct c as [b0 b1 b2 b3 b4 b5 b6 b7].
  destruct b7; [destruct b0, b1, b2, b3, b4, b5, b6; discriminate Hc|].
  destruct b0, b1, b2, b3, b4, b5, b6;
    match goal with
    | |- context [jsonEscapeByte ?c] =>
        let e := eval vm_compute in (jsonEscapeByte c) in
        change (jsonEscapeByte c) with e
    end;
    rewrite ?append_String, ?append_Empty; cbn; rewrite Ht; reflexivity.
Qed.

(** Reading undoes the escaping of a string of bytes below 0x80. *)
Lemma readString_escape (s rest : string) :
  isASCII s = true ->
  readString (jsonEscape s ++ String quote rest) = Some (s, rest).
Proof.
  induction s as [|c s IH]; intros H.
  - reflexivity.
  - cbn [isASCII] in H. apply andb_true_iff in H as [Hc Hs].
    rewrite (jsonEscape_cons c s Hc), append_assoc.
    apply readString_byte; [assumption|]. now apply IH.
Qed.

Lemma jsonString_append (s rest : string) :
  jsonString s ++ rest = String quote (jsonEscape s ++ String quote rest).
Proof.
  unfold jsonString. rewrite append_String, append_assoc.
  now rewrite append_String, append_Empty.
Qed.

Lemma readObject_object (p : JSONPatch) (rest : string) :
  isASCII (Op p) = true -> isASCII (Path p) = true -> isASCII (Value p) = true ->
  readObject (jsonPatchObject p ++ rest) = Some (p, rest).
Proof.
  intros Ho Hp Hv. unfold jsonPatchObject.
  rewrite !append_assoc. rewrite !jsonString_append.
  change (jsonEscape "op") with "op". change (jsonEscape "path") with "path".
  change (jsonEscape "value") with "value".
  unfold readObject.
  change ("{" ++ String quote ("op" ++ String quote (":" ++ String quote
            (jsonEscape (Op p) ++ String quote ("," ++ String quote ("path" ++ String quote (":" ++ String quote
            (jsonEscape (Path p) ++ String quote ("," ++ String quote ("value" ++ String quote (":" ++ String quote
            (jsonEscape (Value p) ++ String quote ("}" ++ rest)))))))))))))
    with (("{" ++ memberHead "op") ++
            (jsonEscape (Op p) ++ String quote (("," ++ memberHead "path") ++
            (jsonEscape (Path p) ++ String quote (("," ++ memberHead "value") ++
            (jsonEscape (Value p) ++ String quote ("}" ++ rest))))))).
  rewrite expect_append. cbn [mbind option_bind].
  rewrite (readString_escape _ _ Ho). cbn [mbind option_bind].
  rewrite expect_append. cbn [mbind option_bind].
  rewrite (readString_escape _ _ Hp). cbn [mbind option_bind].
  rewrite expect_append. cbn [mbind option_bind].
  rewrite (readString_escape _ _ Hv). cbn [mbind option_bind].
  rewrite expect_append. cbn [mbind option_bind].
  now destruct p.
Qed.

(** Whether the three strings of an operation hold bytes below 0x80 only. *)
Definition asciiPatch (p : JSONPatch) : bool :=
  isASCII (Op p) && isASCII (Path p) && isASCII (Value p).

Lemma length_String (c : ascii) (s : string) :
  String.length (String c s) = S (String.length s).
Proof. reflexivity. Qed.

Lemma jsonPatchObject_length (p : JSONPatch) :
  (1 <= String.length (jsonPatchObject p))%nat.
Proof.
  unfold jsonPatchObject. rewrite append_String, append_Empty, length_String.
  apply le_n_S, Nat.le_0_l.
Qed.

Lemma jsonElements_cons (p q : JSONPatch) (r : list JSONPatch) :
  jsonElements (p :: q :: r) = jsonPatchObject p ++ "," ++ jsonElements (q :: r).
Proof. reflexivity. Qed.

Lemma jsonElements_length (ps : list JSONPatch) :
  (length ps <= String.length (jsonElements ps))%nat.
Proof.
  induction ps as [|p [|q r] IH]; [cbn; lia| |].
  - cbn [jsonElements length]. apply jsonPatchObject_length.
  - rewrite jsonElements_cons, !length_append.
    change (String.length ",") with 1.
    change (length (p :: q :: r)) with (S (length (q :: r))).
    pose proof (jsonPatchObject_length p). lia.
Qed.

Lemma readElements_elements (ps : list JSONPatch) :
  forall fuel,
  ps <> [] -> forallb asciiPatch ps = true -> (length ps <= fuel)%nat ->
  readElements fuel (jsonElements ps ++ "]") = Some ps.
Proof.
  induction ps as [|p [|q r] IH]; intros fuel Hne Ha Hf; [congruence| |].
  - destruct fuel as [|fuel]; [cbn in Hf; lia|].
    cbn in Ha. rewrite andb_true_r in Ha.
    apply andb_true_iff in Ha as [Ha Hv]. apply andb_true_iff in Ha as [Ho Hp].
    cbn [jsonElements readElements].
    now rewrite (readObject_object p "]" Ho Hp Hv).
  - destruct fuel as [|fuel]; [cbn in Hf; lia|].
    cbn [forallb] in Ha. apply andb_true_iff in Ha as [Ha Hrest].
    apply andb_true_iff in Ha as [Ha Hv]. apply andb_true_iff in Ha as [Ho Hp].
    rewrite jsonElements_cons. cbn [readElements].
    rewrite !append_assoc, append_String, append_Empty.
    rewrite (readObject_object p _ Ho Hp Hv). cbn [Ascii.eqb Bool.eqb].
    rewrite IH; [reflexivity|discriminate|exact Hrest|].
    change (length (p :: q :: r)) with (S (length (q :: r))) in Hf. lia.
Qed.

(** Reading a marshalled array of operations gives the operations back. *)
Lemma decodePatches_marshal (ps : list JSONPatch) (document : string) :
  ps <> [] -> forallb asciiPatch ps = true ->
  json_Marshal ps = (Some document, None) ->
  decodePatches document = Some ps.
Proof.
  intros Hne Ha H.
  assert (Hd : document = String "[" (jsonElements ps ++ "]")).
  { destruct ps as [|p ps]; [congruence|].
    change (json_Marshal (p :: ps))
      with (Some (String "[" (jsonElements (p :: ps) ++ "]")), @None error) in H.
    congruence. }
  subst document. unfold decodePatches. cbn [Ascii.eqb Bool.eqb].
  apply readElements_elements; [assumption|assumption|].
  rewrite length_String, length_append.
  pose proof (jsonElements_length ps). lia.
Qed.

Lemma isASCII_append (a b : string) :
  isASCII (a ++ b) = isASCII a && isASCII b.
Proof.
  induction a as [|x a IH]; [reflexivity|].
  rewrite append_String. cbn [isASCII]. now rewrite IH, andb_assoc.
Qed.

Lemma escapeSeparators_ascii (key : string) :
  isASCII key = true -> isASCII (escapeSeparators key) = true.
Proof.
  induction key as [|c rest IH]; [reflexivity|].
  cbn [isASCII escapeSeparators]. intros H.
  apply andb_true_iff in H as [Hc Hr].
  destruct (Ascii.eqb c "/"); cbn [isASCII]; rewrite ?Hc, (IH Hr); reflexivity.
Qed.

Lemma patchOf_ascii (op key value : string) :
  isASCII op = true -> isASCII key = true -> isASCII value = true ->
  asciiPatch (patchOf op (key, value)) = true.
Proof.
  intros Ho Hk Hv. unfold asciiPatch, patchOf, formatPathValue. cbn [Op Path Value fst snd].
  rewrite Ho, Hv, Replace_separator, isASCII_append, (escapeSeparators_ascii key Hk).
  reflexivity.
Qed.

(** The operations [GenerateRemovePatch] marshals. *)
Lemma GenerateRemovePatch_operations (keys : list string) :
  keys <> [] ->
  GenerateRemovePatch keys
  = json_Marshal (map (patchOf "remove")
                    (map_to_list (gset_to_gmap "" (list_to_set keys : gset string)))) /\
  map (patchOf "remove")
      (map_to_list (gset_to_gmap "" (list_to_set keys : gset string)))
  ≡ₚ removePatches keys.
Proof.
  intros Hne. unfold GenerateRemovePatch. split.
  - rewrite generateAnnotationPatch_nonempty.
    + rewrite <- (gset_to_gmap_empty (K := string) "") at 1.
      now rewrite annotationMap_set, (right_id_L ∅ (∪)).
    + destruct keys as [|a l]; [congruence|]. cbn [foldl].
      apply annotationMap_nonempty, insert_non_empty.
  - unfold removePatches.
    rewrite (map_to_list_gset_to_gmap (list_to_set keys) "").
    change (map (patchOf "remove") ((., "") <$> elements (list_to_set keys : gset string)))
      with (patchOf "remove" <$> ((., "") <$> elements (list_to_set keys : gset string))).
    now rewrite <- list_fmap_compose.
Qed.

Lemma marshalled_nonempty (ps : list JSONPatch) :
  ps <> [] -> exists document, json_Marshal ps = (Some document, None).
Proof. intros _. destruct ps; cbn; eauto. Qed.

(** C6. [GenerateAddPatch] on an empty map and [GenerateRemovePatch] on an
    empty list of keys fail with the input error and return no document. On
    every non-empty input they succeed and return the marshalled array of
    their operations, which are, up to the order of the range over the map,
    one add operation per entry of the map and one remove operation per
    distinct key. When keys and values hold bytes below 0x80 only, reading
    the document gives exactly these operations back. *)
Theorem patch_builders_input (m : gmap string string) (keys : list string) :
  GenerateAddPatch ∅
    = (None, Some (errors_New "annotations to format cannot be empty or nil")) /\
  GenerateRemovePatch []
    = (None, Some (errors_New "annotations to format cannot be empty or nil")) /\
  (m <> ∅ ->
     exists document patches,
       GenerateAddPatch m = (Some document, None) /\
       json_Marshal patches = (Some document, None) /\
       patches ≡ₚ map (patchOf "add") (map_to_list m) /\
       length patches = size m /\
       ((forall key value, m !! key = Some value ->
           isASCII key = true /\ isASCII value = true) ->
        decodePatches document = Some patches)) /\
  (keys <> [] ->
     exists document patches,
       GenerateRemovePatch keys = (Some document, None) /\
       json_Marshal patches = (Some document, None) /\
       patches ≡ₚ removePatches keys /\
       ((forall key, In key keys -> isASCII key = true) ->
        decodePatches document = Some patches)).
Proof.
  split; [apply generateAnnotationPatch_empty|].
  split; [apply generateAnnotationPatch_empty|].
  split.
  - intros Hm. unfold GenerateAddPatch.
    rewrite (generateAnnotationPatch_nonempty _ _ Hm).
    assert (Hne : map (patchOf "add") (map_to_list m) <> []).
    { intros E. apply map_eq_nil in E. now apply map_to_list_empty_iff in E. }
    destruct (marshalled_nonempty _ Hne) as [document Hd].
    exists document, (map (patchOf "add") (map_to_list m)).
    split; [exact Hd|]. split; [exact Hd|]. split; [reflexivity|].
    split; [rewrite length_map; apply length_map_to_list|].
    intros Hascii. apply decodePatches_marshal; [exact Hne| |exact Hd].
    apply forallb_forall. intros p Hp.
    apply in_map_iff in Hp as ([key value] & <- & Hin).
    apply list_elem_of_In, elem_of_map_to_list in Hin.
    destruct (Hascii key value Hin) as [Hk Hv].
    now apply patchOf_ascii.
  - intros Hk.
    destruct (GenerateRemovePatch_operations keys Hk) as [Hgen Hperm].
    assert (Hne : map (patchOf "remove")
                    (map_to_list (gset_to_gmap "" (list_to_set keys : gset string))) <> []).
    { intros E. rewrite E in Hperm. symmetry in Hperm.
      apply Permutation_nil_r in Hperm. unfold removePatches in Hperm.
      apply map_eq_nil in Hperm.
      apply (elements_empty_inv (C := gset string)) in Hperm.
      destruct keys as [|a l]; [congruence|].
      assert (Ha : a ∈ (list_to_set (a :: l) : gset string))
        by (apply elem_of_list_to_set; left).
      rewrite Hperm in Ha. now apply not_elem_of_empty in Ha. }
    destruct (marshalled_nonempty _ Hne) as [document Hd].
    exists document, (map (patchOf "remove")
                        (map_to_list (gset_to_gmap "" (list_to_set keys : gset string)))).
    split; [now rewrite Hgen|]. split; [exact Hd|]. split; [exact Hperm|].
    intros Hascii. apply decodePatches_marshal; [exact Hne| |exact Hd].
    apply forallb_forall. intros p Hp.
    apply in_map_iff in Hp as ([key value] & <- & Hin).
    apply list_elem_of_In, elem_of_map_to_list in Hin.
    apply lookup_gset_to_gmap_Some in Hin as [Hin <-].
    apply elem_of_list_to_set, list_elem_of_In in Hin.
    apply patchOf_ascii; [reflexivity|now apply Hascii|reflexivity].
Qed.

(** C7. The path built for an annotation key is the annotations prefix
    followed by a segment in which every slash of the key is replaced by its
    escape sequence, so the segment holds no separator byte; the key a/b
    yields the segment a~1b. *)
Theorem formatPathValue_escapes (key : string) :
  (exists segment,
     formatPathValue key = "/metadata/annotations/" ++ segment /\
     segment = escapeSeparators key /\
     hasSeparator segment = false) /\
  formatPathValue "a/b" = "/metadata/annotations/a~1b".
Proof.
  split; [|reflexivity].
  exists (Replace key "/" "~1"). split; [reflexivity|].
  rewrite Replace_separator. split; [reflexivity|apply escapeSeparators_clean].
Qed.

(** C10. The escaping is not injective: the tilde of a key is kept as it is,
    so the distinct keys a/b and a~1b are given the same patch path. *)
Theorem formatPathValue_not_injective :
  "a/b" <> "a~1b" /\
  formatPathValue "a/b" = "/metadata/annotations/a~1b" /\
  formatPathValue "a~1b" = "/metadata/annotations/a~1b" /\
  (exists key1 key2,
     key1 <> key2 /\ formatPathValue key1 = formatPathValue key2).
Proof.
  assert (Hne : "a/b" <> "a~1b") by discriminate.
  split; [exact Hne|]. split; [reflexivity|]. split; [reflexivity|].
  exists "a/b", "a~1b". split; [exact Hne|reflexivity].
Qed.

(** C6 at the add patch of one annotation and the remove patch of two keys. *)
Lemma patch_builders_input_witness :
  (exists document,
     GenerateAddPatch {[ "a/b" := "v" ]} = (Some document, None) /\
     decodePatches document
     = Some [NewJSONPatch "add" "/metadata/annotations/a~1b" "v"]) /\
  (exists document patches,
     GenerateRemovePatch ["k1"; "k2"] = (Some document, None) /\
     patches ≡ₚ removePatches ["k1"; "k2"] /\
     decodePatches document = Some patches).
Proof.
  split.
  - destruct (proj1 (proj2 (proj2
      (patch_builders_input {[ "a/b" := "v" ]} ["k1"; "k2"]))))
      as (document & patches & Hgen & _ & Hperm & _ & Hdec).
    + apply insert_non_empty.
    + exists document. split; [exact Hgen|].
      rewrite map_to_list_singleton in Hperm.
      apply Permutation_singleton_r in Hperm. subst patches.
      apply Hdec. intros key value H.
      apply lookup_singleton_Some in H as [<- <-]. split; reflexivity.
  - destruct (proj2 (proj2 (proj2
      (patch_builders_input {[ "a/b" := "v" ]} ["k1"; "k2"]))))
      as (document & patches & Hgen & _ & Hperm & Hdec).
    + discriminate.
    + exists document, patches. split; [exact Hgen|]. split; [exact Hperm|].
      apply Hdec. intros key [<-|[<-|[]]]; reflexivity.
Defined.

(** *** Further properties of the escaping and of the patch builders *)

(** Whether a key holds the two bytes ~1, the escape sequence of the slash. *)
Fixpoint hasEscapeSequence (key : string) : bool :=
  match key with
  | EmptyString => false
  | String c rest =>
      (Ascii.eqb c "~" &&
       match rest with
       | String d _ => Ascii.eqb d "1"
       | EmptyString => false
       end)
      || hasEscapeSequence rest
  end.

Lemma escapeSeparators_nil (key : string) :
  escapeSeparators key = EmptyString -> key = EmptyString.
Proof.
  destruct key as [|c rest]; [reflexivity|]. cbn.
  destruct (Ascii.eqb c "/"); discriminate.
Qed.

(** The first byte of an escaped key is a tilde only for a key that starts
    with a slash or with a tilde. *)
Lemma escapeSeparators_head_one (key rest' : string) :
  escapeSeparators key = String "1" rest' ->
  exists rest, key = String "1" rest /\ escapeSeparators rest = rest'.
Proof.
  destruct key as [|c rest]; [discriminate|]. cbn.
  destruct (Ascii.eqb c "/") eqn:E; [discriminate|].
  intros [= -> <-]. eauto.
Qed.

Lemma escapeSeparators_inj (key1 : string) :
  forall key2,
  hasEscapeSequence key1 = false -> hasEscapeSequence key2 = false ->
  escapeSeparators key1 = escapeSeparators key2 -> key1 = key2.
Proof.
  induction key1 as [|c1 r1 IH]; intros key2 H1 H2 E.
  - symmetry. apply escapeSeparators_nil. now rewrite <- E.
  - destruct key2 as [|c2 r2].
    + apply escapeSeparators_nil. exact E.
    + cbn [hasEscapeSequence] in H1, H2.
      apply orb_false_iff in H1 as [H1 H1'], H2 as [H2 H2'].
      cbn [escapeSeparators] in E.
      destruct (Ascii.eqb_spec c1 "/") as [->|N1];
        destruct (Ascii.eqb_spec c2 "/") as [->|N2].
      * injection E as E. f_equal. now apply IH.
      * injection E as <- E. symmetry in E.
        apply escapeSeparators_head_one in E as (r & -> & _).
        cbn in H2. discriminate.
      * injection E as -> E.
        apply escapeSeparators_head_one in E as (r & -> & _).
        cbn in H1. discriminate.
      * injection E as -> E. f_equal. now apply IH.
Qed.

Lemma path_prefix_cancel (segment1 segment2 : string) :
  "/metadata/annotations/" ++ segment1 = "/metadata/annotations/" ++ segment2 ->
  segment1 = segment2.
Proof. intros E. simpl in E. now injection E. Qed.

(** X1. On keys that do not hold the escape sequence ~1 the patch path
    determines the key: two such keys with the same path are equal. *)
Theorem formatPathValue_inj_without_escape (key1 key2 : string) :
  hasEscapeSequence key1 = false -> hasEscapeSequence key2 = false ->
  formatPathValue key1 = formatPathValue key2 -> key1 = key2.
Proof.
  intros H1 H2 E. unfold formatPathValue in E. cbn zeta in E.
  apply path_prefix_cancel in E. rewrite !Replace_separator in E.
  now apply (escapeSeparators_inj key1 key2).
Qed.

Lemma formatPathValue_inj_without_escape_witness :
  hasEscapeSequence "a.io/version" = false /\
  formatPathValue "a.io/version" = "/metadata/annotations/a.io~1version" /\
  "a.io/version" = "a.io/version".
Proof.
  split; [reflexivity|]. split; [reflexivity|].
  apply (formatPathValue_inj_without_escape "a.io/version" "a.io/version");
    reflexivity.
Defined.

Fixpoint countSeparators (key : string) : nat :=
  match key with
  | EmptyString => 0
  | String c rest =>
      (if Ascii.eqb c "/" then 1 else 0) + countSeparators rest
  end.

Lemma escapeSeparators_length (key : string) :
  String.length (escapeSeparators key) = String.length key + countSeparators key.
Proof.
  induction key as [|c rest IH]; [reflexivity|].
  cbn [escapeSeparators countSeparators].
  destruct (Ascii.eqb c "/"); cbn [String.length]; rewrite IH; lia.
Qed.

Lemma countSeparators_zero (key : string) :
  countSeparators key = 0 <-> hasSeparator key = false.
Proof.
  induction key as [|c rest IH]; [easy|].
  cbn [countSeparators hasSeparator].
  destruct (Ascii.eqb c "/"); cbn; [split; [lia|discriminate]|exact IH].
Qed.

Lemma escapeSeparators_id (key : string) :
  hasSeparator key = false -> escapeSeparators key = key.
Proof.
  induction key as [|c rest IH]; [reflexivity|].
  cbn [hasSeparator escapeSeparators].
  destruct (Ascii.eqb c "/"); cbn; [discriminate|].
  intros H. now rewrite IH.
Qed.

(** X2. The path is longer than the prefix and the key by one byte per slash
    of the key, and the key is copied into the path unchanged exactly when
    it holds no slash. *)
Theorem formatPathValue_length_and_identity (key : string) :
  String.length (formatPathValue key)
    = 22 + String.length key + countSeparators key /\
  (formatPathValue key = "/metadata/annotations/" ++ key <->
   hasSeparator key = false).
Proof.
  unfold formatPathValue. cbn zeta. rewrite Replace_separator. split.
  - change (String.length ("/metadata/annotations/" ++ escapeSeparators key))
      with (22 + String.length (escapeSeparators key)).
    rewrite escapeSeparators_length. lia.
  - split.
    + intros E. apply path_prefix_cancel in E.
      apply countSeparators_zero.
      pose proof (escapeSeparators_length key) as L. rewrite E in L. lia.
    + intros H. now rewrite escapeSeparators_id.
Qed.

(** X3. For a non-empty list of keys the document of [GenerateRemovePatch] is
    the marshalling of one remove operation per distinct key of the list,
    each with an empty value: repeated keys are removed once. *)
Theorem GenerateRemovePatch_distinct (annotations : list string) :
  annotations <> [] ->
  exists patches,
    GenerateRemovePatch annotations = json_Marshal patches /\
    patches ≡ₚ removePatches annotations /\
    length patches = size (list_to_set annotations : gset string).
Proof.
  intros Hne. unfold GenerateRemovePatch.
  assert (Hm : foldl (fun (m : gmap string string) annotation =>
                        <[annotation := ""]> m) ∅ annotations <> ∅).
  { destruct annotations as [|a l]; [congruence|]. cbn [foldl].
    apply annotationMap_nonempty, insert_non_empty. }
  rewrite (generateAnnotationPatch_nonempty _ _ Hm).
  eexists. split; [reflexivity|].
  rewrite <- (gset_to_gmap_empty (K := string) "").
  rewrite annotationMap_set, (right_id_L ∅ (∪)).
  assert (Hp : map (patchOf "remove")
                 (map_to_list (gset_to_gmap "" (list_to_set annotations : gset string)))
               ≡ₚ removePatches annotations).
  { unfold removePatches.
    rewrite (map_to_list_gset_to_gmap (list_to_set annotations) "").
    change (map (patchOf "remove") ((., "") <$> elements (list_to_set annotations : gset string)))
      with (patchOf "remove" <$> ((., "") <$> elements (list_to_set annotations : gset string))).
    rewrite <- list_fmap_compose. reflexivity. }
  split; [exact Hp|].
  rewrite Hp. unfold removePatches. now rewrite length_map.
Qed.

Lemma GenerateRemovePatch_distinct_witness :
  exists patches,
    GenerateRemovePatch ["k1"; "k2"; "k1"] = json_Marshal patches /\
    patches ≡ₚ removePatches ["k1"; "k2"; "k1"] /\
    length patches = size (list_to_set ["k1"; "k2"; "k1"] : gset string).
Proof. apply (GenerateRemovePatch_distinct ["k1"; "k2"; "k1"]). discriminate. Defined.

End Annotations.

(** ** The windows package: SSH connectivity *)

Module Windows.

(** [sshPort] is the default SSH port. *)
Definition sshPort : string := "22".

(** [newAuthErr] returns a new [AuthErr] holding the text of the cause. *)
Definition newAuthErr (err : string) : error := AuthErr err.

(** [strings.Contains(s, substr)]. *)
Fixpoint Contains (s substr : string) : bool :=
  String.prefix substr s ||
  match s with
  | EmptyString => false
  | String _ rest => Contains rest substr
  end.

(** An [*ssh.Client] is identified by the address it is connected to and the
    user it is logged in as; an [ssh.Signer] by its key. *)
Record ssh_Client : Type := mkClient { remoteAddr : string; remoteUser : string }.
Definition ssh_Signer : Type := string.

(** [ssh.ClientConfig]: the user and the public-key signers. The host key
    callback accepts every host key. *)
Record ssh_ClientConfig : Type := mkConfig {
  User : string;
  Auth : list ssh_Signer
}.

(** [sshConnectivity] encapsulates the information needed to connect to the
    Windows VM over ssh. The logger writes to the log of the [World]. *)
Record sshConnectivity : Type := mkSsh {
  username : string;
  ipAddress : string;
  signer : option ssh_Signer;
  sshClient : option ssh_Client
}.

Inductive LogLine : Type :=
  | LogInfo (msg : string) (keysAndValues : list string)
  | LogError (err : error) (msg : string) (keysAndValues : list string).

(** What the code acts on outside its own memory: the number of dials made
    so far, the lines logged, and the remote host's directories, files, open
    file handles and SFTP sessions. *)
Record World : Type := mkWorld {
  dialled : nat;
  logged : list LogLine;
  dirs : gset string;
  files : gmap string string;
  openFiles : list string;
  sftpSessions : nat
}.

Definition countDial (w : World) : World :=
  mkWorld (S (dialled w)) (logged w) (dirs w) (files w) (openFiles w) (sftpSessions w).

Definition writeLog (l : LogLine) (w : World) : World :=
  mkWorld (dialled w) (logged w ++ [l]) (dirs w) (files w) (openFiles w) (sftpSessions w).

(** The network: the outcome of the n-th [ssh.Dial] of a run, a connected
    client or the text of the error. *)
Definition Network : Type :=
  nat -> string -> ssh_ClientConfig -> ssh_Client + string.

(** *** wait.PollImmediate

    [wait.PollImmediate(interval, timeout, condition)] of
    k8s.io/apimachinery calls [condition] at once and then once per tick of
    [interval] until it reports done or an error, or until [timeout] has
    passed, when it returns [wait.ErrWaitTimeout]. Time is counted in calls:
    [ticks] is the number of calls the timeout leaves room for after the
    first one, the call made when the timeout fires included. *)
Section Poll.

Context {S : Type}.
Variable condition : S -> bool * option error * S.

Fixpoint pollTicks (ticks : nat) (s : S) : option error * S :=
  match ticks with
  | O => (Some ErrWaitTimeout, s)
  | Datatypes.S k =>
      let '(done, err, s') := condition s in
      match err with
      | Some e => (Some e, s')
      | None => if done then (None, s') else pollTicks k s'
      end
  end.

Definition PollImmediate (ticks : nat) (s : S) : option error * S :=
  let '(done, err, s') := condition s in
  match err with
  | Some e => (Some e, s')
  | None => if done then (None, s') else pollTicks ticks s'
  end.

Lemma PollImmediate_pollTicks (ticks : nat) (s : S) :
  PollImmediate ticks s = pollTicks (Datatypes.S ticks) s.
Proof. reflexivity. Qed.

End Poll.

(** The condition polled by [init]: one [ssh.Dial]. It assigns the
    [sshClient] variable of [init], the second component of the state. *)
Definition dialCondition (net : Network) (c : sshConnectivity)
    (config : ssh_ClientConfig) (s : World * option ssh_Client)
    : bool * option error * (World * option ssh_Client) :=
  let w := s.1 in
  match net (dialled w) (ipAddress c ++ ":" ++ sshPort) config with
  | inl client => (true, None, (countDial w, Some client))
  | inr err =>
      let w' := writeLog (LogInfo "SSH dial" ["IP Address"; ipAddress c; "error"; err])
                         (countDial w) in
      if Contains err "unable to authenticate"
      then (false, Some (newAuthErr err), (w', None))
      else (false, None, (w', None))
  end.

(** Whether [init] finds the connection information complete. *)
Definition incomplete (c : sshConnectivity) : bool :=
  String.eqb (username c) "" || String.eqb (ipAddress c) "" ||
  match signer c with None => true | Some _ => false end.

Definition clientConfig (c : sshConnectivity) : ssh_ClientConfig :=
  {| User := username c;
     Auth := match signer c with Some k => [k] | None => [] end |}.

(** [init] initialises the key based SSH client. It retries while no client
    can be created, as the VM could still be executing the steps in its user
    data. [ticks] stands for [retry.Timeout] counted in polls of one minute. *)
Definition init (net : Network) (ticks : nat) (w : World) (c : sshConnectivity)
    : option error * sshConnectivity * World :=
  if incomplete c
  then (Some (errors_New "incomplete sshConnectivity information"), c, w)
  else
    let config := clientConfig c in
    let '(err, (w', client)) :=
      PollImmediate (dialCondition net c config) ticks (w, None) in
    match err with
    | Some e =>
        (Some (Errorf_w ("unable to connect to Windows VM " ++ ipAddress c) e), c, w')
    | None =>
        (None, mkSsh (username c) (ipAddress c) (signer c) client, w')
    end.

(** [newSshConnectivity] returns an instance of [sshConnectivity]. *)
Definition newSshConnectivity (net : Network) (ticks : nat) (w : World)
    (username ipAddress : string) (signer : option ssh_Signer)
    : option sshConnectivity * option error * World :=
  let c := mkSsh username ipAddress signer None in
  let '(err, c', w') := init net ticks w c in
  match err with
  | Some e => (None, Some (Errorf_w "error instantiating SSH client" e), w')
  | None => (Some c', None, w')
  end.

(** The outcome of the n-th dial of a run of [init] for [c]. *)
Definition attempt (net : Network) (c : sshConnectivity) (n : nat)
    : ssh_Client + string :=
  net n (ipAddress c ++ ":" ++ sshPort) (clientConfig c).

(** A dial fails with credential rejection when the text of its error holds
    the words the SSH library uses for it; every other failure is transient. *)
Definition credentialRejected (r : ssh_Client + string) : bool :=
  match r with
  | inl _ => false
  | inr err => Contains err "unable to authenticate"
  end.

Definition transientFailure (r : ssh_Client + string) : bool :=
  match r with
  | inl _ => false
  | inr err => negb (Contains err "unable to authenticate")
  end.

Section InitProofs.

Variable net : Network.
Variable c : sshConnectivity.

Let cond := dialCondition net c (clientConfig c).

Lemma dialCondition_transient (w : World) (cl : option ssh_Client) :
  transientFailure (attempt net c (dialled w)) = true ->
  exists w', cond (w, cl) = (false, None, (w', None)) /\
             dialled w' = Datatypes.S (dialled w).
Proof.
  unfold cond, dialCondition, attempt, transientFailure. cbn [fst].
  destruct (net (dialled w) _ _) as [client|err]; [discriminate|].
  intros H. apply negb_true_iff in H. rewrite H.
  eexists. split; reflexivity.
Qed.

Lemma dialCondition_rejected (w : World) (cl : option ssh_Client) (err : string) :
  attempt net c (dialled w) = inr err ->
  Contains err "unable to authenticate" = true ->
  exists w', cond (w, cl) = (false, Some (AuthErr err), (w', None)) /\
             dialled w' = Datatypes.S (dialled w).
Proof.
  unfold cond, dialCondition, attempt. cbn [fst].
  intros -> ->. eexists. split; reflexivity.
Qed.

Lemma dialCondition_connected (w : World) (cl : option ssh_Client)
    (client : ssh_Client) :
  attempt net c (dialled w) = inl client ->
  cond (w, cl) = (true, None, (countDial w, Some client)).
Proof.
  unfold cond, dialCondition, attempt. cbn [fst]. now intros ->.
Qed.

(** [k] transient failures in a row use up [k] polls and [k] dials. *)
Lemma pollTicks_retries (k : nat) :
  forall (ticks : nat) (w : World) (cl : option ssh_Client),
  (forall j, j < k -> transientFailure (attempt net c (dialled w + j)) = true) ->
  exists w' cl',
    pollTicks cond (k + ticks) (w, cl) = pollTicks cond ticks (w', cl') /\
    dialled w' = dialled w + k.
Proof.
  induction k as [|k IH]; intros ticks w cl Hk.
  - exists w, cl. split; [reflexivity|lia].
  - destruct (dialCondition_transient w cl) as (w1 & E1 & D1).
    { rewrite <- (Nat.add_0_r (dialled w)). apply Hk. lia. }
    destruct (IH ticks w1 None) as (w' & cl' & E & D).
    { intros j Hj. rewrite D1.
      replace (Datatypes.S (dialled w) + j) with (dialled w + Datatypes.S j) by lia.
      apply Hk. lia. }
    exists w', cl'. split; [|lia].
    cbn [Nat.add pollTicks]. rewrite E1. exact E.
Qed.

Hypothesis complete : incomplete c = false.

Variable ticks : nat.
Variable w : World.

(** Transient failures, then a dial rejected for its credentials. *)
Lemma init_rejected (k : nat) (msg : string) :
  k <= ticks ->
  (forall j, j < k -> transientFailure (attempt net c (dialled w + j)) = true) ->
  attempt net c (dialled w + k) = inr msg ->
  credentialRejected (inr msg) = true ->
  exists w',
    init net ticks w c
    = (Some (Errorf_w ("unable to connect to Windows VM " ++ ipAddress c)
                      (AuthErr msg)), c, w') /\
    dialled w' = dialled w + k + 1.
Proof.
  intros Hk Htr Hatt Hrej.
  unfold init. rewrite complete, PollImmediate_pollTicks.
  destruct (pollTicks_retries k (Datatypes.S (ticks - k)) w None Htr)
    as (w1 & cl1 & E & D).
  replace (k + Datatypes.S (ticks - k)) with (Datatypes.S ticks) in E by lia.
  fold cond. rewrite E. cbn [pollTicks].
  rewrite <- D in Hatt.
  destruct (dialCondition_rejected w1 cl1 msg Hatt Hrej) as (w2 & E2 & D2).
  rewrite E2. exists w2. split; [reflexivity|lia].
Qed.

(** Transient failures for as long as the timeout leaves room. *)
Lemma init_timeout :
  (forall j, j <= ticks ->
     transientFailure (attempt net c (dialled w + j)) = true) ->
  exists w',
    init net ticks w c
    = (Some (Errorf_w ("unable to connect to Windows VM " ++ ipAddress c)
                      ErrWaitTimeout), c, w') /\
    dialled w' = dialled w + ticks + 1.
Proof.
  intros Htr.
  unfold init. rewrite complete, PollImmediate_pollTicks.
  destruct (pollTicks_retries (Datatypes.S ticks) 0 w None) as (w1 & cl1 & E & D).
  { intros j Hj. apply Htr. lia. }
  rewrite Nat.add_0_r in E. fold cond. rewrite E. cbn [pollTicks].
  exists w1. split; [reflexivity|lia].
Qed.

(** Transient failures, then a dial that connects. *)
Lemma init_connected (k : nat) (client : ssh_Client) :
  k <= ticks ->
  (forall j, j < k -> transientFailure (attempt net c (dialled w + j)) = true) ->
  attempt net c (dialled w + k) = inl client ->
  exists w',
    init net ticks w c
    = (None, mkSsh (username c) (ipAddress c) (signer c) (Some client), w') /\
    dialled w' = dialled w + k + 1.
Proof.
  intros Hk Htr Hatt.
  unfold init. rewrite complete, PollImmediate_pollTicks.
  destruct (pollTicks_retries k (Datatypes.S (ticks - k)) w None Htr)
    as (w1 & cl1 & E & D).
  replace (k + Datatypes.S (ticks - k)) with (Datatypes.S ticks) in E by lia.
  fold cond. rewrite E. cbn [pollTicks].
  rewrite <- D in Hatt.
  rewrite (dialCondition_connected w1 cl1 client Hatt).
  exists (countDial w1). split; [reflexivity|cbn; lia].
Qed.

End InitProofs.

(** C3. For complete connection information [init] polls [ssh.Dial]: a
    dial rejected for its credentials ends the polling at once with an error
    wrapping [AuthErr] and no later dial is made; any other failed dial is
    followed by another one as long as the timeout leaves room, and when it
    does not the error wraps [wait.ErrWaitTimeout]; a dial that succeeds
    after transient failures yields the client and a nil error. *)
Theorem init_retry_policy (net : Network) (ticks : nat) (w : World)
    (c : sshConnectivity) :
  incomplete c = false ->
  (forall k msg,
     k <= ticks ->
     (forall j, j < k -> transientFailure (attempt net c (dialled w + j)) = true) ->
     attempt net c (dialled w + k) = inr msg ->
     credentialRejected (inr msg) = true ->
     exists w',
       init net ticks w c
       = (Some (Errorf_w ("unable to connect to Windows VM " ++ ipAddress c)
                         (AuthErr msg)), c, w') /\
       dialled w' = dialled w + k + 1) /\
  ((forall j, j <= ticks ->
      transientFailure (attempt net c (dialled w + j)) = true) ->
   exists w',
     init net ticks w c
     = (Some (Errorf_w ("unable to connect to Windows VM " ++ ipAddress c)
                       ErrWaitTimeout), c, w') /\
     dialled w' = dialled w + ticks + 1) /\
  (forall k client,
     k <= ticks ->
     (forall j, j < k -> transientFailure (attempt net c (dialled w + j)) = true) ->
     attempt net c (dialled w + k) = inl client ->
     exists w',
       init net ticks w c
       = (None, mkSsh (username c) (ipAddress c) (signer c) (Some client), w') /\
       dialled w' = dialled w + k + 1).
Proof.
  intros Hc. split; [|split].
  - intros k msg. now apply init_rejected.
  - now apply init_timeout.
  - intros k client. now apply init_connected.
Qed.

(** [newSshConnectivity] hands the [AuthErr] of [init] on to its caller,
    who finds it with [errors.As]. *)
Lemma newSshConnectivity_rejected (net : Network) (ticks : nat) (w : World)
    (user ip : string) (key : ssh_Signer) (msg : string) :
  incomplete (mkSsh user ip (Some key) None) = false ->
  attempt net (mkSsh user ip (Some key) None) (dialled w) = inr msg ->
  credentialRejected (inr msg) = true ->
  exists e w',
    newSshConnectivity net ticks w user ip (Some key) = (None, Some e, w') /\
    errors_As_AuthErr e = true /\ errors_Is_ErrWaitTimeout e = false /\
    dialled w' = dialled w + 1.
Proof.
  intros Hc Hatt Hrej.
  destruct (init_rejected net _ Hc ticks w 0 msg) as (w' & E & D).
  - lia.
  - intros j Hj. lia.
  - now rewrite Nat.add_0_r.
  - exact Hrej.
  - unfold newSshConnectivity. rewrite E.
    eexists _, w'. split; [reflexivity|]. split; [reflexivity|].
    split; [reflexivity|lia].
Qed.

(** With incomplete connection information [init] fails before any dial. *)
Lemma init_incomplete (net : Network) (ticks : nat) (w : World)
    (c : sshConnectivity) :
  incomplete c = true ->
  init net ticks w c
  = (Some (errors_New "incomplete sshConnectivity information"), c, w).
Proof. intros H. unfold init. now rewrite H. Qed.

(** *** File transfer over SFTP *)

(** The remote SFTP server during one [transfer]: for each request the error
    it answers with, if any. [mkdirAllMade] are the directories the server
    makes for the [MkdirAll] request: the missing parents of the directory
    and the directory itself, or those made before the request failed. A
    failing copy has written the given number of bytes. *)
Record SftpServer : Type := mkServer {
  newClientErr : option error;
  mkdirAllErr : option error;
  mkdirAllMade : list string;
  createErr : option error;
  copyErr : option (nat * error);
  fileCloseErr : option error;
  ftpCloseErr : option error
}.

Definition sftpOpened (w : World) : World :=
  mkWorld (dialled w) (logged w) (dirs w) (files w) (openFiles w)
          (Datatypes.S (sftpSessions w)).

(** [ftp.Close()], deferred by [transfer]. When it succeeds the session is
    over and the server has released the handles opened in it, so that the
    open handles are those of before the session, [handlesBefore]. A failure
    is logged. *)
Definition ftpClose (srv : SftpServer) (handlesBefore : list string) (w : World)
    : World :=
  match ftpCloseErr srv with
  | Some err => writeLog (LogError err "error closing FTP connection" []) w
  | None =>
      mkWorld (dialled w) (logged w) (dirs w) (files w) handlesBefore
              (Nat.pred (sftpSessions w))
  end.

(** The directories the server has made for a [MkdirAll] request. *)
Definition madeDirs (made : list string) (w : World) : World :=
  mkWorld (dialled w) (logged w) (list_to_set made ∪ dirs w) (files w)
          (openFiles w) (sftpSessions w).

(** After a [MkdirAll] that succeeds the directory exists. *)
Definition madeDir (dir : string) (w : World) : World :=
  mkWorld (dialled w) (logged w) ({[ dir ]} ∪ dirs w) (files w) (openFiles w)
          (sftpSessions w).

(** [ftp.Create(path)]: the file is created or truncated and a handle to it
    is open. *)
Definition created (path : string) (w : World) : World :=
  mkWorld (dialled w) (logged w) (dirs w) (<[ path := "" ]> (files w))
          (path :: openFiles w) (sftpSessions w).

Definition written (path content : string) (w : World) : World :=
  mkWorld (dialled w) (logged w) (dirs w) (<[ path := content ]> (files w))
          (openFiles w) (sftpSessions w).

(** A successful [dstFile.Close()] releases the handle opened last. *)
Definition closedFile (w : World) : World :=
  mkWorld (dialled w) (logged w) (dirs w) (files w) (tail (openFiles w))
          (sftpSessions w).

Fixpoint takeBytes (n : nat) (s : string) : string :=
  match n, s with
  | Datatypes.S k, String ch rest => String ch (takeBytes k rest)
  | _, _ => EmptyString
  end.

(** [transfer] uses FTP to copy from [reader] to the remote VM directory,
    creating the directory if needed. [reader] is the content read until
    end of file. *)
Definition transfer (srv : SftpServer) (w : World) (c : sshConnectivity)
    (reader filename remoteDir : string) : option error * World :=
  match sshClient c with
  | None => (Some (errors_New "transfer cannot be called with nil SSH client"), w)
  | Some _ =>
      match newClientErr srv with
      | Some err => (Some err, w)
      | None =>
          let handlesBefore := openFiles w in
          let w := madeDirs (mkdirAllMade srv) (sftpOpened w) in
          let '(result, w) :=
            match mkdirAllErr srv with
            | Some err =>
                (Some (Errorf_w ("error creating remote directory " ++ remoteDir) err), w)
            | None =>
                let w := madeDir remoteDir w in
                let remoteFile := remoteDir ++ String backslash filename in
                match createErr srv with
                | Some err =>
                    (Some (Errorf_w ("error initializing " ++ remoteFile
                                       ++ " file on Windows VM") err), w)
                | None =>
                    let w := created remoteFile w in
                    match copyErr srv with
                    | Some (n, err) =>
                        (Some (Errorf_w ("error copying " ++ filename
                                           ++ " to the Windows VM") err),
                         written remoteFile (takeBytes n reader) w)
                    | None =>
                        let w := written remoteFile reader w in
                        (* Forcefully close the file so that it can be executed later *)
                        match fileCloseErr srv with
                        | Some err =>
                            (None,
                             writeLog (LogError err "error closing remote file"
                                                ["file"; remoteFile]) w)
                        | None => (None, closedFile w)
                        end
                    end
                end
            end in
          (result, ftpClose srv handlesBefore w)
      end
  end.

(** The destination path of a transfer. *)
Definition remotePath (remoteDir filename : string) : string :=
  remoteDir ++ String backslash filename.

Lemma ftpClose_files (srv : SftpServer) (before : list string) (w : World) :
  files (ftpClose srv before w) = files w.
Proof. unfold ftpClose. now destruct (ftpCloseErr srv). Qed.

Lemma ftpClose_openFiles (srv : SftpServer) (before : list string) (w : World) :
  openFiles (ftpClose srv before w)
  = match ftpCloseErr srv with Some _ => openFiles w | None => before end.
Proof. unfold ftpClose. now destruct (ftpCloseErr srv). Qed.

Lemma ftpClose_logged (srv : SftpServer) (before : list string) (w : World)
    (l : LogLine) :
  In l (logged w) -> In l (logged (ftpClose srv before w)).
Proof.
  unfold ftpClose. destruct (ftpCloseErr srv); cbn; [|tauto].
  intros H. apply in_or_app. now left.
Qed.

(** [transfer] returns a nil error exactly when every step up to and
    including the copy succeeded, whatever the two closes answer. *)
Lemma transfer_nil_iff (srv : SftpServer) (w : World) (c : sshConnectivity)
    (reader filename remoteDir : string) :
  (transfer srv w c reader filename remoteDir).1 = None <->
  sshClient c <> None /\ newClientErr srv = None /\ mkdirAllErr srv = None /\
  createErr srv = None /\ copyErr srv = None.
Proof.
  unfold transfer.
  destruct (sshClient c); cbn; [|split; [discriminate|intros (H & _); congruence]].
  destruct (newClientErr srv); cbn; [split; [discriminate|intros (_ & H & _); congruence]|].
  destruct (mkdirAllErr srv); cbn;
    [split; [discriminate|intros (_ & _ & H & _); congruence]|].
  destruct (createErr srv); cbn;
    [split; [discriminate|intros (_ & _ & _ & H & _); congruence]|].
  destruct (copyErr srv) as [[n e]|]; cbn;
    [split; [discriminate|intros (_ & _ & _ & _ & H); congruence]|].
  destruct (fileCloseErr srv); cbn; split; auto; intros _; repeat split; congruence.
Qed.

(** C5, as amended. When [transfer] returns a nil error, the destination
    file holds the whole content read from [reader] and its close has been
    attempted: if the close succeeded the handle is released, and if it
    failed the failure is logged and not returned. *)
Theorem transfer_success (srv : SftpServer) (w : World) (c : sshConnectivity)
    (reader filename remoteDir : string) (w' : World) :
  transfer srv w c reader filename remoteDir = (None, w') ->
  files w' !! remotePath remoteDir filename = Some reader /\
  (fileCloseErr srv = None -> openFiles w' = openFiles w) /\
  (forall err, fileCloseErr srv = Some err ->
     In (LogError err "error closing remote file"
                  ["file"; remotePath remoteDir filename]) (logged w')).
Proof.
  unfold transfer, remotePath.
  destruct (sshClient c); [|discriminate].
  destruct (newClientErr srv); [discriminate|].
  destruct (mkdirAllErr srv); [discriminate|].
  destruct (createErr srv); [discriminate|].
  destruct (copyErr srv) as [[n e]|]; [discriminate|].
  destruct (fileCloseErr srv) as [e|]; intros H; injection H as <-;
    rewrite ftpClose_files, ftpClose_openFiles; cbn.
  - split; [apply lookup_insert_eq|]. split; [discriminate|].
    intros err [= <-].
    apply ftpClose_logged. cbn. apply in_or_app. right. now left.
  - split; [apply lookup_insert_eq|]. split; [|discriminate].
    intros _. now destruct (ftpCloseErr srv).
Qed.

(** *** Scenarios *)

Definition exampleConnectivity : sshConnectivity :=
  mkSsh "Administrator" "10.0.0.5" (Some "ssh-rsa-key") None.

Definition exampleClient : ssh_Client := mkClient "10.0.0.5:22" "Administrator".

Definition startWorld : World := mkWorld 0 [] ∅ ∅ [] 0.

(** A host that refuses the first two dials while it boots. *)
Definition bootingHost : Network :=
  fun n _ _ =>
    match n with
    | 0 | 1 => inr "dial tcp 10.0.0.5:22: connect: connection refused"
    | _ => inl exampleClient
    end.

(** A host that rejects the key. *)
Definition rejectingHost : Network :=
  fun _ _ _ => inr "ssh: handshake failed: ssh: unable to authenticate, no supported methods remain".

(** A host that never answers. *)
Definition silentHost : Network :=
  fun _ _ _ => inr "dial tcp 10.0.0.5:22: i/o timeout".

(** C3 at the three hosts above, with room for five polls after the first
    dial: the booting host is connected at the third dial, the rejecting
    host ends the polling at the first, the silent host uses all six. *)
Lemma init_retry_policy_witness :
  (exists w',
     init bootingHost 5 startWorld exampleConnectivity
     = (None, mkSsh "Administrator" "10.0.0.5" (Some "ssh-rsa-key") (Some exampleClient), w') /\
     dialled w' = 3) /\
  (exists w',
     init rejectingHost 5 startWorld exampleConnectivity
     = (Some (Errorf_w "unable to connect to Windows VM 10.0.0.5"
                (AuthErr "ssh: handshake failed: ssh: unable to authenticate, no supported methods remain")),
        exampleConnectivity, w') /\
     dialled w' = 1) /\
  (exists w',
     init silentHost 5 startWorld exampleConnectivity
     = (Some (Errorf_w "unable to connect to Windows VM 10.0.0.5" ErrWaitTimeout),
        exampleConnectivity, w') /\
     dialled w' = 6).
Proof.
  split; [|split].
  - destruct (init_retry_policy bootingHost 5 startWorld exampleConnectivity eq_refl)
      as (_ & _ & H).
    apply (H 2 exampleClient); [lia| |reflexivity].
    intros [|[|j]] Hj; [reflexivity|reflexivity|lia].
  - destruct (init_retry_policy rejectingHost 5 startWorld exampleConnectivity eq_refl)
      as (H & _ & _).
    apply (H 0); [lia| |reflexivity|vm_compute; reflexivity].
    intros j Hj. lia.
  - destruct (init_retry_policy silentHost 5 startWorld exampleConnectivity eq_refl)
      as (_ & H & _).
    apply H. intros j Hj. vm_compute. reflexivity.
Defined.

Definition connected : sshConnectivity :=
  mkSsh "Administrator" "10.0.0.5" (Some "ssh-rsa-key") (Some exampleClient).

(** A server on which every request succeeds, and one on which only the
    close of the destination file fails. *)
Definition healthyServer : SftpServer :=
  mkServer None None ["C:\k"] None None None None.

Definition closeFailingServer : SftpServer :=
  mkServer None None ["C:\k"] None None (Some (errors_New "connection lost")) None.

(** C5 as stated fails: on the server whose file close fails, [transfer]
    logs the failure of the close of the destination file and returns a nil
    error. *)
Lemma transfer_nil_despite_failed_close :
  fileCloseErr closeFailingServer = Some (errors_New "connection lost") /\
  (transfer closeFailingServer startWorld connected "MZ" "wmcb.exe" "C:\k").1 = None /\
  logged (transfer closeFailingServer startWorld connected "MZ" "wmcb.exe" "C:\k").2
  = [LogError (errors_New "connection lost") "error closing remote file"
       ["file"; "C:\k\wmcb.exe"]].
Proof. vm_compute. repeat split. Qed.

(** C5 as amended, at a transfer to the healthy server. *)
Lemma transfer_success_witness :
  files (transfer healthyServer startWorld connected "MZ" "wmcb.exe" "C:\k").2
    !! "C:\k\wmcb.exe" = Some "MZ" /\
  openFiles (transfer healthyServer startWorld connected "MZ" "wmcb.exe" "C:\k").2 = [].
Proof.
  destruct (transfer_success healthyServer startWorld connected "MZ" "wmcb.exe" "C:\k"
              (transfer healthyServer startWorld connected "MZ" "wmcb.exe" "C:\k").2)
    as (Hfile & Hclosed & _).
  - vm_compute. reflexivity.
  - split; [exact Hfile|]. apply Hclosed. reflexivity.
Defined.

(** *** Invariants of the polling of [init] *)

Lemma pollTicks_dial_invariant (net : Network) (c : sshConnectivity)
    (config : ssh_ClientConfig) (ticks : nat) :
  forall (w : World) (cl : option ssh_Client) err w' cl',
  pollTicks (dialCondition net c config) ticks (w, cl) = (err, (w', cl')) ->
  dialled w <= dialled w' <= dialled w + ticks /\
  dirs w' = dirs w /\ files w' = files w /\
  openFiles w' = openFiles w /\ sftpSessions w' = sftpSessions w /\
  length (logged w') + match err with Some _ => 0 | None => 1 end + dialled w
    = length (logged w) + dialled w' /\
  (err = None -> exists client, cl' = Some client).
Proof.
  induction ticks as [|k IH]; intros w cl err w' cl' H; cbn [pollTicks] in H.
  - injection H as <- <- <-.
    repeat split; try reflexivity; try lia. discriminate.
  - unfold dialCondition in H at 1. cbn [fst] in H.
    destruct (net (dialled w) _ config) as [client|msg].
    + injection H as <- <- <-. cbn.
      repeat split; try reflexivity; try lia. eauto.
    + destruct (Contains msg "unable to authenticate").
      * injection H as <- <- <-. cbn. rewrite length_app. cbn.
        repeat split; try reflexivity; try lia. discriminate.
      * apply IH in H. cbn in H. rewrite length_app in H. cbn in H.
        destruct H as (Hd & Hdirs & Hfiles & Hopen & Hsftp & Hlog & Hcl).
        repeat split; try assumption; lia.
Qed.

(** X5. Whatever the network answers, [init] makes at most one dial more than
    the timeout leaves polls for, logs one line per failed dial, and leaves
    the directories, files, file handles and SFTP sessions of the host as
    they are. *)
Theorem init_dial_bound_and_frame (net : Network) (ticks : nat) (w : World)
    (c : sshConnectivity) :
  let err := (init net ticks w c).1.1 in
  let w' := (init net ticks w c).2 in
  dialled w <= dialled w' <= dialled w + ticks + 1 /\
  length (logged w') + match err with Some _ => 0 | None => 1 end + dialled w
    = length (logged w) + dialled w' /\
  dirs w' = dirs w /\ files w' = files w /\
  openFiles w' = openFiles w /\ sftpSessions w' = sftpSessions w.
Proof.
  cbn zeta. unfold init. destruct (incomplete c).
  - cbn. repeat split; try reflexivity; lia.
  - rewrite PollImmediate_pollTicks.
    destruct (pollTicks _ (Datatypes.S ticks) (w, None)) as [err [w' cl']] eqn:E.
    apply pollTicks_dial_invariant in E.
    destruct E as (Hd & Hdirs & Hfiles & Hopen & Hsftp & Hlog & _).
    destruct err; cbn; repeat split; try assumption; lia.
Qed.

(** [init] keeps the user, the address and the signer; on an error it
    leaves the client as it was, and a nil error comes with a client. *)
Lemma init_fields (net : Network) (ticks : nat) (w : World)
    (c : sshConnectivity) :
  let err := (init net ticks w c).1.1 in
  let c' := (init net ticks w c).1.2 in
  username c' = username c /\ ipAddress c' = ipAddress c /\
  signer c' = signer c /\
  (err <> None -> c' = c) /\
  (err = None -> incomplete c = false /\ exists client, sshClient c' = Some client).
Proof.
  cbn zeta. unfold init. destruct (incomplete c).
  - cbn. repeat split; try reflexivity; discriminate.
  - rewrite PollImmediate_pollTicks.
    destruct (pollTicks _ (Datatypes.S ticks) (w, None)) as [err [w' cl']] eqn:E.
    apply pollTicks_dial_invariant in E.
    destruct E as (_ & _ & _ & _ & _ & _ & Hcl).
    destruct err; cbn; repeat split; try reflexivity; try discriminate.
    + congruence.
    + now apply Hcl.
Qed.

Lemma first_decisive (P : nat -> bool) (n : nat) :
  (forall j, j <= n -> P j = true) \/
  (exists k, k <= n /\ (forall j, j < k -> P j = true) /\ P k = false).
Proof.
  induction n as [|n [All|(k & Hk & Hbefore & Hat)]].
  - destruct (P 0) eqn:E.
    + left. intros j Hj. now replace j with 0 by lia.
    + right. exists 0. repeat split; [lia| |assumption]. intros j Hj. lia.
  - destruct (P (Datatypes.S n)) eqn:E.
    + left. intros j Hj. destruct (Nat.eq_dec j (Datatypes.S n)) as [->|Hne];
        [assumption|apply All; lia].
    + right. exists (Datatypes.S n). repeat split; [lia| |assumption].
      intros j Hj. apply All. lia.
  - right. exists k. repeat split; [lia|assumption|assumption].
Qed.

(** X6. For complete connection information the outcome of [init] is decided by
    the first dial that is not a transient failure: a client and a nil
    error when that dial connects, an error wrapping [AuthErr] when it is
    rejected, and an error wrapping [wait.ErrWaitTimeout] when there is no
    such dial within the timeout. No other outcome exists. *)
Theorem init_outcome (net : Network) (ticks : nat) (w : World)
    (c : sshConnectivity) :
  incomplete c = false ->
  (exists k client w',
     k <= ticks /\
     (forall j, j < k -> transientFailure (attempt net c (dialled w + j)) = true) /\
     attempt net c (dialled w + k) = inl client /\
     init net ticks w c
     = (None, mkSsh (username c) (ipAddress c) (signer c) (Some client), w') /\
     dialled w' = dialled w + k + 1) \/
  (exists k msg w',
     k <= ticks /\
     (forall j, j < k -> transientFailure (attempt net c (dialled w + j)) = true) /\
     attempt net c (dialled w + k) = inr msg /\
     credentialRejected (inr msg) = true /\
     init net ticks w c
     = (Some (Errorf_w ("unable to connect to Windows VM " ++ ipAddress c)
                       (AuthErr msg)), c, w') /\
     dialled w' = dialled w + k + 1) \/
  ((forall j, j <= ticks ->
      transientFailure (attempt net c (dialled w + j)) = true) /\
   exists w',
     init net ticks w c
     = (Some (Errorf_w ("unable to connect to Windows VM " ++ ipAddress c)
                       ErrWaitTimeout), c, w') /\
     dialled w' = dialled w + ticks + 1).
Proof.
  intros Hc.
  destruct (first_decisive
              (fun j => transientFailure (attempt net c (dialled w + j))) ticks)
    as [All|(k & Hk & Hbefore & Hat)].
  - right. right. split; [exact All|]. now apply init_timeout.
  - destruct (attempt net c (dialled w + k)) as [client|msg] eqn:Ea.
    + left. destruct (init_connected net c Hc ticks w k client Hk Hbefore Ea)
        as (w' & E & D).
      exists k, client, w'. repeat split; assumption.
    + right. left.
      assert (Hrej : credentialRejected (inr msg) = true).
      { cbn in Hat |- *. now apply negb_false_iff in Hat. }
      destruct (init_rejected net c Hc ticks w k msg Hk Hbefore Ea Hrej)
        as (w' & E & D).
      exists k, msg, w'. repeat split; assumption.
Qed.

Lemma init_outcome_witness :
  (exists k client w',
     k <= 5 /\
     (forall j, j < k ->
        transientFailure (attempt bootingHost exampleConnectivity (0 + j)) = true) /\
     attempt bootingHost exampleConnectivity (0 + k) = inl client /\
     init bootingHost 5 startWorld exampleConnectivity
     = (None, mkSsh "Administrator" "10.0.0.5" (Some "ssh-rsa-key") (Some client), w') /\
     dialled w' = 0 + k + 1) \/
  (exists k msg w',
     k <= 5 /\
     (forall j, j < k ->
        transientFailure (attempt bootingHost exampleConnectivity (0 + j)) = true) /\
     attempt bootingHost exampleConnectivity (0 + k) = inr msg /\
     credentialRejected (inr msg) = true /\
     init bootingHost 5 startWorld exampleConnectivity
     = (Some (Errorf_w ("unable to connect to Windows VM " ++ "10.0.0.5")
                       (AuthErr msg)), exampleConnectivity, w') /\
     dialled w' = 0 + k + 1) \/
  ((forall j, j <= 5 ->
      transientFailure (attempt bootingHost exampleConnectivity (0 + j)) = true) /\
   exists w',
     init bootingHost 5 startWorld exampleConnectivity
     = (Some (Errorf_w ("unable to connect to Windows VM " ++ "10.0.0.5")
                       ErrWaitTimeout), exampleConnectivity, w') /\
     dialled w' = 0 + 5 + 1).
Proof.
  exact (init_outcome bootingHost 5 startWorld exampleConnectivity eq_refl).
Defined.

(** *** Further properties of [transfer] *)

(** X9. The SFTP session opened by [transfer] is closed on every return path:
    when its close succeeds no session is left open, whichever request
    failed before; when its close fails the failure is logged. *)
Theorem transfer_deferred_close (srv : SftpServer) (w : World)
    (c : sshConnectivity) (reader filename remoteDir : string) :
  (ftpCloseErr srv = None ->
     sftpSessions (transfer srv w c reader filename remoteDir).2 = sftpSessions w) /\
  (forall err, ftpCloseErr srv = Some err ->
     sshClient c <> None -> newClientErr srv = None ->
     In (LogError err "error closing FTP connection" [])
        (logged (transfer srv w c reader filename remoteDir).2)).
Proof.
  unfold transfer, ftpClose.
  destruct (sshClient c); cbn;
    [|repeat split; intros err _ H; congruence].
  destruct (newClientErr srv); cbn;
    [repeat split; intros err' _ _ H; congruence|].
  destruct (mkdirAllErr srv) as [e1|], (createErr srv) as [e2|],
    (copyErr srv) as [[n e3]|], (fileCloseErr srv) as [e4|],
    (ftpCloseErr srv) as [e5|]; cbn;
    (split; [first [discriminate | reflexivity]|]);
    intros err H; try discriminate; injection H as <-; intros _ _;
    apply in_or_app; right; now left.
Qed.

(** X10. The error [transfer] returns is decided by the requests up to the
    copy: two servers that answer those alike give the same error, whatever
    their closes answer, and the error is nil exactly when there is a
    client and all four requests succeed. *)
Theorem transfer_result_ignores_closes (srv srv' : SftpServer) (w w2 : World)
    (c : sshConnectivity) (reader filename remoteDir : string) :
  ((transfer srv w c reader filename remoteDir).1 = None <->
   sshClient c <> None /\ newClientErr srv = None /\ mkdirAllErr srv = None /\
   createErr srv = None /\ copyErr srv = None) /\
  (newClientErr srv = newClientErr srv' -> mkdirAllErr srv = mkdirAllErr srv' ->
   createErr srv = createErr srv' ->
   option_map snd (copyErr srv) = option_map snd (copyErr srv') ->
   (transfer srv w c reader filename remoteDir).1
   = (transfer srv' w2 c reader filename remoteDir).1).
Proof.
  split; [apply transfer_nil_iff|].
  unfold transfer. intros <- <- <- Hcopy.
  destruct (sshClient c); [|reflexivity].
  destruct (newClientErr srv); [reflexivity|].
  destruct (mkdirAllErr srv) as [e1|]; [reflexivity|].
  destruct (createErr srv) as [e2|]; [reflexivity|].
  destruct (copyErr srv) as [[n e3]|], (copyErr srv') as [[n' e3']|];
    cbn in Hcopy; try discriminate.
  - injection Hcopy as <-. reflexivity.
  - destruct (fileCloseErr srv), (fileCloseErr srv'); reflexivity.
Qed.

Lemma transfer_result_ignores_closes_witness :
  (transfer closeFailingServer startWorld connected "MZ" "wmcb.exe" "C:\k").1
  = (transfer healthyServer startWorld connected "MZ" "wmcb.exe" "C:\k").1.
Proof.
  apply (proj2 (transfer_result_ignores_closes closeFailingServer healthyServer
                  startWorld startWorld connected "MZ" "wmcb.exe" "C:\k"));
    reflexivity.
Defined.

Lemma transfer_deferred_close_witness :
  sftpSessions (transfer closeFailingServer startWorld connected "MZ" "wmcb.exe" "C:\k").2
  = sftpSessions startWorld.
Proof.
  apply (proj1 (transfer_deferred_close closeFailingServer startWorld connected
                  "MZ" "wmcb.exe" "C:\k")).
  reflexivity.
Defined.

(** X11. [transfer] makes no dial, changes no file other than the destination
    file and removes no directory; when the creation of the remote
    directory succeeds, the remote directory exists afterwards. *)
Theorem transfer_frame (srv : SftpServer) (w : World) (c : sshConnectivity)
    (reader filename remoteDir : string) :
  let w' := (transfer srv w c reader filename remoteDir).2 in
  dialled w' = dialled w /\
  (forall path, path <> remotePath remoteDir filename ->
     files w' !! path = files w !! path) /\
  (forall dir, dir ∈ dirs w -> dir ∈ dirs w') /\
  (sshClient c <> None -> newClientErr srv = None -> mkdirAllErr srv = None ->
     remoteDir ∈ dirs w').
Proof.
  cbn zeta. unfold transfer, remotePath, ftpClose.
  destruct (sshClient c); cbn; [|repeat split; try tauto; congruence].
  destruct (newClientErr srv); cbn; [repeat split; try tauto; congruence|].
  destruct (mkdirAllErr srv) as [e1|], (createErr srv) as [e2|],
    (copyErr srv) as [[n e3]|], (fileCloseErr srv) as [e4|],
    (ftpCloseErr srv) as [e5|]; cbn;
    (split; [reflexivity|]);
    (split; [intros path Hp; rewrite ?lookup_insert_ne by congruence; reflexivity|]);
    (split; [intros dir; rewrite ?elem_of_union; tauto|]);
    intros _ _ H; try discriminate;
    rewrite ?elem_of_union, elem_of_singleton; tauto.
Qed.

(** A server on which the copy breaks after one byte. *)
Definition copyFailingServer : SftpServer :=
  mkServer None None ["C:\k"] None (Some (1, errors_New "connection lost")) None None.

(** X12. The failures of [transfer] once the SFTP session is open. A failing
    creation of the directory or of the file is returned wrapped and leaves
    files and handles as they were. A failing copy is returned wrapped and
    leaves the bytes written so far in the destination file; once the
    deferred close of the session has succeeded no handle of that file is
    left. *)
Theorem transfer_failures (srv : SftpServer) (w : World) (c : sshConnectivity)
    (reader filename remoteDir : string) :
  sshClient c <> None -> newClientErr srv = None ->
  let r := transfer srv w c reader filename remoteDir in
  (forall err, mkdirAllErr srv = Some err ->
     r.1 = Some (Errorf_w ("error creating remote directory " ++ remoteDir) err) /\
     files r.2 = files w /\ openFiles r.2 = openFiles w) /\
  (forall err, mkdirAllErr srv = None -> createErr srv = Some err ->
     r.1 = Some (Errorf_w ("error initializing " ++ remotePath remoteDir filename
                             ++ " file on Windows VM") err) /\
     files r.2 = files w /\ openFiles r.2 = openFiles w) /\
  (forall n err, mkdirAllErr srv = None -> createErr srv = None ->
     copyErr srv = Some (n, err) ->
     r.1 = Some (Errorf_w ("error copying " ++ filename ++ " to the Windows VM") err) /\
     files r.2 !! remotePath remoteDir filename = Some (takeBytes n reader) /\
     (ftpCloseErr srv = None -> openFiles r.2 = openFiles w)).
Proof.
  intros Hc Hn. cbn zeta. unfold transfer, remotePath.
  destruct (sshClient c); [|congruence]. rewrite Hn.
  split; [|split].
  - intros err ->. cbn. rewrite ftpClose_files, ftpClose_openFiles.
    cbn. now destruct (ftpCloseErr srv).
  - intros err -> ->. cbn. rewrite ftpClose_files, ftpClose_openFiles.
    cbn. now destruct (ftpCloseErr srv).
  - intros n err -> -> ->. cbn. rewrite ftpClose_files, ftpClose_openFiles.
    cbn. split; [reflexivity|]. split; [now rewrite lookup_insert_eq|].
    now intros ->.
Qed.

Lemma transfer_failures_witness :
  (transfer copyFailingServer startWorld connected "MZ" "wmcb.exe" "C:\k").1
    = Some (Errorf_w "error copying wmcb.exe to the Windows VM"
              (errors_New "connection lost")) /\
  files (transfer copyFailingServer startWorld connected "MZ" "wmcb.exe" "C:\k").2
    !! "C:\k\wmcb.exe" = Some "M" /\
  openFiles (transfer copyFailingServer startWorld connected "MZ" "wmcb.exe" "C:\k").2
    = [].
Proof.
  assert (Hc : sshClient connected <> None) by discriminate.
  destruct (proj2 (proj2 (transfer_failures copyFailingServer startWorld connected
                            "MZ" "wmcb.exe" "C:\k" Hc eq_refl))
              1 (errors_New "connection lost")) as (He & Hf & Ho); try reflexivity.
  split; [exact He|]. split; [exact Hf|]. apply Ho. reflexivity.
Defined.

(** *** Running a command *)

(** [io.EOF], which is [errors.New] of the text EOF. *)
Definition io_EOF : error := errors_New "EOF".

(** The SSH server during one [run]: the error of [NewSession], if any, the
    combined output and the error of each command, and the error of the
    close of the session, if any. *)
Record SshServer : Type := mkSshServer {
  newSessionErr : option error;
  combinedOutput : string -> string * option error;
  sessionCloseErr : option error
}.

(** [run] instantiates a new SSH session, runs the command on the VM and
    returns the combined stdout and stderr output. The deferred close of the
    session logs its error unless that is [io.EOF], which is what closing a
    session that the command has already closed answers. *)
Definition run (srv : SshServer) (w : World) (c : sshConnectivity) (cmd : string)
    : string * option error * World :=
  match sshClient c with
  | None => ("", Some (errors_New "run cannot be called with nil SSH client"), w)
  | Some _ =>
      match newSessionErr srv with
      | Some err => ("", Some err, w)
      | None =>
          let '(out, err) := combinedOutput srv cmd in
          let w' :=
            match sessionCloseErr srv with
            | Some closeErr =>
                if negb (errors_Is closeErr io_EOF)
                then writeLog (LogError closeErr "error closing SSH session" []) w
                else w
            | None => w
            end in
          (out, err, w')
      end
  end.

(** X8. With a client and a session, [run] returns the output and the error of
    the command as they are, whatever the close of the session answers; the
    error of the close is logged, except [io.EOF], wrapped or not, which
    leaves no trace. Without a client or a session there is no output and
    nothing is logged. *)
Theorem run_result (srv : SshServer) (w : World) (c : sshConnectivity)
    (cmd : string) :
  (sshClient c = None \/ newSessionErr srv <> None ->
     (run srv w c cmd).1.1 = "" /\ (run srv w c cmd).1.2 <> None /\
     (run srv w c cmd).2 = w) /\
  (sshClient c <> None -> newSessionErr srv = None ->
     (run srv w c cmd).1 = combinedOutput srv cmd /\
     (sessionCloseErr srv = None -> (run srv w c cmd).2 = w) /\
     (forall msg closeErr,
        sessionCloseErr srv = Some closeErr ->
        closeErr = io_EOF \/ closeErr = Errorf_w msg io_EOF ->
        (run srv w c cmd).2 = w) /\
     (forall closeErr,
        sessionCloseErr srv = Some closeErr -> errors_Is closeErr io_EOF = false ->
        logged (run srv w c cmd).2
        = (logged w ++ [LogError closeErr "error closing SSH session" []])%list)).
Proof.
  unfold run. split.
  - destruct (sshClient c); [|intros _; cbn; repeat split; discriminate].
    destruct (newSessionErr srv); [|intros [H|H]; congruence].
    intros _. cbn. repeat split. discriminate.
  - intros Hc Hs. destruct (sshClient c); [|congruence]. rewrite Hs.
    destruct (combinedOutput srv cmd) as [out err]. cbn.
    split; [reflexivity|]. split; [now intros ->|]. split.
    + intros msg closeErr -> [->| ->]; reflexivity.
    + intros closeErr -> ->. reflexivity.
Qed.

(** A server whose command exits with an error and whose session is found
    closed afterwards. *)
Definition exitOneServer : SshServer :=
  mkSshServer None
    (fun cmd => ("Get-Content : Cannot find path", Some (errors_New "Process exited with status 1")))
    (Some io_EOF).

Lemma run_result_witness :
  (run exitOneServer startWorld connected "Get-Content -Raw -Path C:\k\kubelet-ca.crt").1
    = ("Get-Content : Cannot find path", Some (errors_New "Process exited with status 1")) /\
  (run exitOneServer startWorld connected "Get-Content -Raw -Path C:\k\kubelet-ca.crt").2
    = startWorld.
Proof.
  assert (Hc : sshClient connected <> None) by discriminate.
  destruct (proj2 (run_result exitOneServer startWorld connected
                     "Get-Content -Raw -Path C:\k\kubelet-ca.crt") Hc eq_refl)
    as (Hres & _ & Heof & _).
  split; [exact Hres|].
  apply (Heof "" io_EOF); [reflexivity|now left].
Defined.

(** X7. [newSshConnectivity] returns a connectivity exactly when it returns a
    nil error. That connectivity holds the given user, address and signer
    and a client, so that [run] on it returns what the command returns as
    soon as the session opens, and [transfer] on it succeeds as soon as the
    four SFTP requests up to the copy do. *)
Theorem newSshConnectivity_usable (net : Network) (ticks : nat) (w : World)
    (user ip : string) (key : option ssh_Signer) :
  let r := newSshConnectivity net ticks w user ip key in
  (r.1.1 = None <-> r.1.2 <> None) /\
  (forall c', r.1.1 = Some c' ->
     (exists client, c' = mkSsh user ip key (Some client)) /\
     incomplete c' = false /\
     (forall srv w2 cmd, newSessionErr srv = None ->
        (run srv w2 c' cmd).1 = combinedOutput srv cmd) /\
     (forall srv w2 reader filename remoteDir,
        (transfer srv w2 c' reader filename remoteDir).1 = None <->
        newClientErr srv = None /\ mkdirAllErr srv = None /\
        createErr srv = None /\ copyErr srv = None)).
Proof.
  cbn zeta. unfold newSshConnectivity.
  pose proof (init_fields net ticks w (mkSsh user ip key None)) as H.
  cbn zeta in H.
  destruct (init net ticks w (mkSsh user ip key None)) as [[err c1] w1].
  cbn [fst snd] in H. destruct H as (Hu & Hi & Hs & _ & Hok).
  destruct err as [e|]; cbn.
  - split; [split; [discriminate|reflexivity]|]. intros c' [=].
  - split; [split; [discriminate|congruence]|].
    intros c' [= <-]. destruct (Hok eq_refl) as (Hinc & client & Hcl).
    assert (Hc1 : c1 = mkSsh user ip key (Some client)).
    { destruct c1 as [u a k cl]. cbn in *. congruence. }
    split; [eauto|]. split; [now rewrite Hc1|]. split.
    + intros srv w2 cmd Hsess.
      unfold run. rewrite Hc1. cbn. rewrite Hsess.
      now destruct (combinedOutput srv cmd).
    + intros srv w2 reader filename remoteDir.
      rewrite transfer_nil_iff. split; [tauto|].
      intros H. split; [congruence|exact H].
Qed.

End Windows.

(** ** The upgrade gate of the controllers package *)

Module UpgradeGate.

(** The backing driver of a mounted volume. *)
Inductive Driver : Type := InTree | NewDriver.

(** One entry of the live volume stats of a node: a mounted volume and the
    driver that backs it. *)
Record VolumeStats : Type := mkVolumeStats {
  volume : string;
  driver : Driver
}.

Section Gate.

(** [metadata.CSIConfiguredLabel], the label that marks a node whose storage
    driver has been migrated. *)
Variable CSIConfiguredLabel : string.

Definition hasMigratedMarker (node : core_Node) : bool :=
  match Labels node !! CSIConfiguredLabel with
  | Some _ => true
  | None => false
  end.

(** Whether the snapshot references [attached] by an in-tree volume path. *)
Definition inTreeReference (liveVolumeStats : list VolumeStats)
    (attached : string) : bool :=
  existsb (fun st =>
             match driver st with
             | InTree => String.eqb (volume st) attached
             | NewDriver => false
             end) liveVolumeStats.

Definition inTreeVolumeAttached (node : core_Node)
    (liveVolumeStats : list VolumeStats) : bool :=
  existsb (inTreeReference liveVolumeStats) (VolumesAttached node).

(** Modelled from the spec: [instanceReconciler.upgradeBlocked] of the
    controllers package, of which the sources hold the test only. If the
    node already carries the storage-driver-migrated marker, upgrade is
    never blocked. Otherwise it is blocked iff [migratingToNewDriver] is
    true and at least one currently-attached volume on the node is
    referenced by an in-tree volume path in the live stats snapshot. *)
Definition upgradeBlocked (node : core_Node) (migratingToNewDriver : bool)
    (liveVolumeStats : list VolumeStats) : bool :=
  if hasMigratedMarker node then false
  else migratingToNewDriver && inTreeVolumeAttached node liveVolumeStats.

Lemma inTreeVolumeAttached_iff (node : core_Node) (stats : list VolumeStats) :
  inTreeVolumeAttached node stats = true <->
  exists attached st,
    In attached (VolumesAttached node) /\ In st stats /\
    driver st = InTree /\ volume st = attached.
Proof.
  unfold inTreeVolumeAttached, inTreeReference.
  rewrite existsb_exists. split.
  - intros (v & Hv & H). apply existsb_exists in H as (st & Hst & H).
    exists v, st. destruct (driver st); [|discriminate].
    apply String.eqb_eq in H. auto.
  - intros (v & st & Hv & Hst & Hd & He). exists v. split; [assumption|].
    apply existsb_exists. exists st. split; [assumption|].
    rewrite Hd. now apply String.eqb_eq.
Qed.

(** The node of every row of [TestUpgradeBlocked] has no attached volume,
    and every row expects the gate to be open. *)
Lemma TestUpgradeBlocked_rows (labels : gmap string string)
    (upgradingToCSI : bool) (pods : list VolumeStats) :
  upgradeBlocked (mkNode "node" ∅ labels []) upgradingToCSI pods = false.
Proof.
  unfold upgradeBlocked. destruct (hasMigratedMarker _); [reflexivity|].
  cbn. apply andb_false_r.
Qed.

(** C4. [upgradeBlocked] is false whenever the node carries the migrated
    marker label, false whenever the upgrade does not migrate to the new
    driver, and otherwise true exactly when some volume attached to the node
    is referenced by an in-tree volume path of the snapshot. *)
Theorem upgradeBlocked_spec (node : core_Node) (migratingToNewDriver : bool)
    (liveVolumeStats : list VolumeStats) :
  (hasMigratedMarker node = true ->
     upgradeBlocked node migratingToNewDriver liveVolumeStats = false) /\
  upgradeBlocked node false liveVolumeStats = false /\
  (hasMigratedMarker node = false -> migratingToNewDriver = true ->
     (upgradeBlocked node migratingToNewDriver liveVolumeStats = true <->
      exists attached st,
        In attached (VolumesAttached node) /\ In st liveVolumeStats /\
        driver st = InTree /\ volume st = attached)).
Proof.
  unfold upgradeBlocked.
  split; [now intros ->|].
  split; [now destruct (hasMigratedMarker node)|].
  intros -> ->. cbn. apply inTreeVolumeAttached_iff.
Qed.

End Gate.

(** *** Scenarios *)

Definition markerLabel : string := "windowsmachineconfig.openshift.io/csi-configured".

Definition nodeWithVolume (labels : gmap string string) : core_Node :=
  mkNode "node" ∅ labels ["vol-1"].

(** C4 at a node with one attached volume: blocked when the snapshot
    references the volume by an in-tree path and the upgrade migrates the
    driver; open when the node carries the marker, when the upgrade does not
    migrate, and when the only reference is by the new driver. *)
Lemma upgradeBlocked_spec_witness :
  upgradeBlocked markerLabel (nodeWithVolume ∅) true [mkVolumeStats "vol-1" InTree] = true /\
  upgradeBlocked markerLabel (nodeWithVolume {[ markerLabel := "true" ]}) true
    [mkVolumeStats "vol-1" InTree] = false /\
  upgradeBlocked markerLabel (nodeWithVolume ∅) false [mkVolumeStats "vol-1" InTree] = false /\
  upgradeBlocked markerLabel (nodeWithVolume ∅) true [mkVolumeStats "vol-1" NewDriver] <> true.
Proof.
  assert (Hm : hasMigratedMarker markerLabel (nodeWithVolume ∅) = false)
    by (vm_compute; reflexivity).
  split; [|split; [|split]].
  - apply (proj2 (proj2 (upgradeBlocked_spec markerLabel (nodeWithVolume ∅) true
             [mkVolumeStats "vol-1" InTree])) Hm eq_refl).
    exists "vol-1", (mkVolumeStats "vol-1" InTree).
    repeat split; now left.
  - apply (proj1 (upgradeBlocked_spec markerLabel
             (nodeWithVolume {[ markerLabel := "true" ]}) true
             [mkVolumeStats "vol-1" InTree])).
    vm_compute; reflexivity.
  - apply (proj1 (proj2 (upgradeBlocked_spec markerLabel (nodeWithVolume ∅) false
             [mkVolumeStats "vol-1" InTree]))).
  - intros H.
    apply (proj2 (proj2 (upgradeBlocked_spec markerLabel (nodeWithVolume ∅) true
             [mkVolumeStats "vol-1" NewDriver])) Hm eq_refl) in H.
    destruct H as (v & st & _ & [<-|[]] & Hd & _). discriminate.
Defined.

End UpgradeGate.

(** ** Kubelet CA bundle convergence *)

Module Certificates.

(** A trust bundle is a set of PEM certificate blocks. *)
Abbreviation CertificateBundle := (gset string).

(** A managed host, by the bundle its CA file holds. *)
Record Host : Type := mkHost { installed : CertificateBundle }.

(** Modelled from the spec: the merged bundle the engine computes on a
    rotation, which is in [pkg/certificates] and not among the sources. It
    is the union of the prior and the new certificate blocks. *)
Definition mergedBundle (prior new : CertificateBundle) : CertificateBundle :=
  prior ∪ new.

(** Modelled from the spec: one convergence pass on a host, of which the
    sources hold the end-to-end test only. The pass reads the bundle file of
    the host, looks for the expected merged content in it and, if that is
    absent, installs the expected content through [transfer].
    [transferOk] tells whether that transfer succeeds. The result is the
    host after the pass and whether it has converged. *)
Definition convergencePass (expected : CertificateBundle) (transferOk : bool)
    (h : Host) : Host * bool :=
  if bool_decide (expected ⊆ installed h) then (h, true)
  else if transferOk then (mkHost expected, true)
  else (h, false).

(** C9. The merged bundle is the union of the prior and the new blocks,
    and a pass whose transfer succeeds leaves every block of both on the
    host. For an authoritative bundle of two distinct blocks A and B and a
    host converged on A alone, one pass leaves both A and B installed, which
    is not B alone. *)
Theorem rotation_installs_union (prior new : CertificateBundle) (h : Host)
    (A B : string) :
  (forall block, block ∈ mergedBundle prior new <-> block ∈ prior \/ block ∈ new) /\
  (prior ∪ new ⊆ installed (convergencePass (mergedBundle prior new) true h).1 /\
   (convergencePass (mergedBundle prior new) true h).2 = true) /\
  (A <> B ->
   convergencePass (mergedBundle {[ A ]} {[ A; B ]}) true (mkHost {[ A ]})
     = (mkHost {[ A; B ]}, true) /\
   ({[ A; B ]} : CertificateBundle) <> {[ B ]}).
Proof.
  split; [|split].
  - intros block. unfold mergedBundle. set_solver.
  - unfold convergencePass, mergedBundle. case_bool_decide; cbn.
    + split; [assumption|reflexivity].
    + split; [reflexivity|reflexivity].
  - intros Hne. split.
    + unfold convergencePass, mergedBundle. cbn.
      rewrite bool_decide_eq_false_2.
      * f_equal. f_equal. apply set_eq. intros block.
        rewrite !elem_of_union, !elem_of_singleton. tauto.
      * intros Hsub. specialize (Hsub B).
        rewrite !elem_of_union, !elem_of_singleton in Hsub.
        symmetry in Hsub; auto.
    + intros Heq. apply Hne.
      apply (elem_of_singleton (C := gset string)). rewrite <- Heq.
      apply elem_of_union_l. now apply elem_of_singleton.
Qed.

(** C9 at the blocks A and B. *)
Lemma rotation_installs_union_witness :
  convergencePass (mergedBundle {[ "A" ]} {[ "A"; "B" ]}) true (mkHost {[ "A" ]})
    = (mkHost {[ "A"; "B" ]}, true) /\
  ({[ "A"; "B" ]} : CertificateBundle) <> {[ "B" ]}.
Proof.
  apply (proj2 (proj2 (rotation_installs_union ∅ ∅ (mkHost ∅) "A" "B"))).
  discriminate.
Defined.

End Certificates.

(** ** The envvar package: system environment variables of a Windows host *)

Module Envvar.

(** [systemEnvVarRegistryPath] is where system level environment variables
    are stored in the Windows OS. *)
Definition systemEnvVarRegistryPath : string :=
  "SYSTEM\CurrentControlSet\Control\Session Manager\Environment".

(** [registry.ErrNotExist], the error of a read of a value that is not set. *)
Definition registry_ErrNotExist : error :=
  errors_New "The system cannot find the file specified.".

(** The host: the string values under the environment key of the registry,
    and the lines written with klog. *)
Record Machine : Type := mkMachine {
  registry : gmap string string;
  klog : list string
}.

(** The errors the registry answers with during one call, if any: for the
    opening and the closing of the key, and for the read and the write of
    each value. *)
Record RegistryFaults : Type := mkFaults {
  openKeyErr : option error;
  getErr : string -> option error;
  setErr : string -> option error;
  closeErr : option error
}.

(** [registryKey.GetStringValue(key)]: the value, or the empty string with
    an error. *)
Definition GetStringValue (flt : RegistryFaults) (m : Machine) (key : string)
    : string * option error :=
  match getErr flt key with
  | Some e => ("", Some e)
  | None =>
      match registry m !! key with
      | Some v => (v, None)
      | None => ("", Some registry_ErrNotExist)
      end
  end.

(** [registryKey.SetStringValue(key, value)]. *)
Definition SetStringValue (flt : RegistryFaults) (m : Machine) (key value : string)
    : option error * Machine :=
  match setErr flt key with
  | Some e => (Some e, m)
  | None => (None, mkMachine (<[ key := value ]> (registry m)) (klog m))
  end.

Definition klogLine (line : string) (m : Machine) : Machine :=
  mkMachine (registry m) (klog m ++ [line]).

(** The loop of [EnsureVarsAreUpToDate] over the entries of the map, in the
    order the range statement yields them. *)
Fixpoint ensureLoop (flt : RegistryFaults) (entries : list (string * string))
    (restartRequired : bool) (m : Machine) : bool * option error * Machine :=
  match entries with
  | [] => (restartRequired, None, m)
  | (key, expectedVal) :: rest =>
      let '(actualVal, err) := GetStringValue flt m key in
      let update :=
        if negb (String.eqb actualVal expectedVal)
        then
          let m1 := klogLine ("updating environment variable " ++ key) m in
          match SetStringValue flt m1 key expectedVal with
          | (Some e, m2) =>
              (false, Some (Errorf_w ("unable to set environment variable " ++ key) e), m2)
          | (None, m2) => ensureLoop flt rest true m2
          end
        else ensureLoop flt rest restartRequired m in
      match err with
      | Some e =>
          if negb (error_eqb e registry_ErrNotExist)
          then (false, Some (Errorf_w ("unable to read environment variable " ++ key) e), m)
          else update
      | None => update
      end
  end.

(** [EnsureVarsAreUpToDate] ensures that the proxy environment variables are
    set as expected on the instance; it returns whether a restart is
    required. The deferred close of the registry key logs its error.
    [entries] are the entries of the map in the order the range statement
    yields them, which Go leaves open. *)
Definition ensureVarsInOrder (flt : RegistryFaults) (m : Machine)
    (entries : list (string * string)) : bool * option error * Machine :=
  match openKeyErr flt with
  | Some e =>
      (false,
       Some (Errorf_w ("unable to open Windows system registry key "
                         ++ systemEnvVarRegistryPath) e), m)
  | None =>
      let '(restartRequired, err, m') := ensureLoop flt entries false m in
      let m'' :=
        match closeErr flt with
        | Some _ => klogLine "could not close key" m'
        | None => m'
        end in
      (restartRequired, err, m'')
  end.

Definition EnsureVarsAreUpToDate (flt : RegistryFaults) (m : Machine)
    (envVars : gmap string string) : bool * option error * Machine :=
  ensureVarsInOrder flt m (map_to_list envVars).

(** An order in which the range over [envVars] may yield its entries. *)
Definition rangeOrder (envVars : gmap string string)
    (entries : list (string * string)) : Prop :=
  entries ≡ₚ map_to_list envVars.

(** What a read of [key] yields when the registry answers: the value, or
    the empty string for a value that is not set. *)
Definition regRead (m : Machine) (key : string) : string :=
  match registry m !! key with
  | Some v => v
  | None => ""
  end.

Section Loop.

Variable flt : RegistryFaults.

(** One turn of the loop, by cases: the read fails, the write fails, the
    value is written, or the value is found as expected. *)
Lemma ensureLoop_step (key expectedVal : string) (rest : list (string * string))
    (r : bool) (m : Machine) :
  (exists e,
     getErr flt key = Some e /\ error_eqb e registry_ErrNotExist = false /\
     ensureLoop flt ((key, expectedVal) :: rest) r m
     = (false, Some (Errorf_w ("unable to read environment variable " ++ key) e), m)) \/
  (exists e,
     setErr flt key = Some e /\ (GetStringValue flt m key).1 <> expectedVal /\
     ensureLoop flt ((key, expectedVal) :: rest) r m
     = (false, Some (Errorf_w ("unable to set environment variable " ++ key) e),
        klogLine ("updating environment variable " ++ key) m)) \/
  ((GetStringValue flt m key).1 <> expectedVal /\
   ensureLoop flt ((key, expectedVal) :: rest) r m
   = ensureLoop flt rest true
       (mkMachine (<[ key := expectedVal ]> (registry m))
                  (klog m ++ ["updating environment variable " ++ key]))) \/
  ((GetStringValue flt m key).1 = expectedVal /\
   ensureLoop flt ((key, expectedVal) :: rest) r m = ensureLoop flt rest r m).
Proof.
  cbn [ensureLoop].
  destruct (GetStringValue flt m key) as [actualVal err] eqn:Eg. cbn [fst].
  assert (Hupd :
    (exists e, setErr flt key = Some e /\ actualVal <> expectedVal /\
       (if negb (String.eqb actualVal expectedVal)
        then match SetStringValue flt
                     (klogLine ("updating environment variable " ++ key) m)
                     key expectedVal with
             | (Some e, m2) =>
                 (false, Some (Errorf_w ("unable to set environment variable " ++ key) e), m2)
             | (None, m2) => ensureLoop flt rest true m2
             end
        else ensureLoop flt rest r m)
       = (false, Some (Errorf_w ("unable to set environment variable " ++ key) e),
          klogLine ("updating environment variable " ++ key) m)) \/
    (actualVal <> expectedVal /\
       (if negb (String.eqb actualVal expectedVal)
        then match SetStringValue flt
                     (klogLine ("updating environment variable " ++ key) m)
                     key expectedVal with
             | (Some e, m2) =>
                 (false, Some (Errorf_w ("unable to set environment variable " ++ key) e), m2)
             | (None, m2) => ensureLoop flt rest true m2
             end
        else ensureLoop flt rest r m)
       = ensureLoop flt rest true
           (mkMachine (<[ key := expectedVal ]> (registry m))
                      (klog m ++ ["updating environment variable " ++ key]))) \/
    (actualVal = expectedVal /\
       (if negb (String.eqb actualVal expectedVal)
        then match SetStringValue flt
                     (klogLine ("updating environment variable " ++ key) m)
                     key expectedVal with
             | (Some e, m2) =>
                 (false, Some (Errorf_w ("unable to set environment variable " ++ key) e), m2)
             | (None, m2) => ensureLoop flt rest true m2
             end
        else ensureLoop flt rest r m)
       = ensureLoop flt rest r m)).
  { destruct (String.eqb_spec actualVal expectedVal) as [Heq|Hne]; cbn [negb].
    - right. right. split; [assumption|reflexivity].
    - unfold SetStringValue. destruct (setErr flt key) as [e|].
      + left. exists e. repeat split; assumption.
      + right. left. split; [assumption|reflexivity]. }
  destruct err as [e|].
  - destruct (error_eqb e registry_ErrNotExist) eqn:Ee; cbn [negb].
    + destruct Hupd as [(e' & ? & ? & ->)|[(? & ->)|(? & ->)]]; eauto 10.
    + left. exists e. unfold GetStringValue in Eg.
      destruct (getErr flt key) as [e0|].
      * injection Eg as <- <-. repeat split; assumption.
      * destruct (registry m !! key); [discriminate|].
        injection Eg as <- <-. cbn in Ee. discriminate.
  - destruct Hupd as [(e' & ? & ? & ->)|[(? & ->)|(? & ->)]]; eauto 10.
Qed.

(** Every value of the registry is either left as it was or set to the
    value expected for it. *)
Lemma ensureLoop_registry (entries : list (string * string)) :
  forall r m r' e m',
  ensureLoop flt entries r m = (r', e, m') ->
  forall key,
    registry m' !! key = registry m !! key \/
    exists v, In (key, v) entries /\ registry m' !! key = Some v.
Proof.
  induction entries as [|[k0 v0] rest IH]; intros r m r' e m' H key.
  - injection H as <- <- <-. now left.
  - destruct (ensureLoop_step k0 v0 rest r m)
      as [(e0 & _ & _ & E)|[(e0 & _ & _ & E)|[(_ & E)|(_ & E)]]];
      rewrite E in H.
    + injection H as <- <- <-. now left.
    + injection H as <- <- <-. now left.
    + destruct (IH _ _ _ _ _ H key) as [Hk|(v & Hin & Hk)].
      * cbn in Hk. destruct (String.eqb_spec k0 key) as [->|Hne].
        -- rewrite lookup_insert_eq in Hk. right. exists v0. split; [now left|exact Hk].
        -- rewrite lookup_insert_ne in Hk by assumption. now left.
      * right. exists v. split; [now right|exact Hk].
    + destruct (IH _ _ _ _ _ H key) as [Hk|(v & Hin & Hk)].
      * now left.
      * right. exists v. split; [now right|exact Hk].
Qed.

(** An error comes with a restart flag that is false. *)
Lemma ensureLoop_error (entries : list (string * string)) :
  forall r m r' e m',
  ensureLoop flt entries r m = (r', Some e, m') -> r' = false.
Proof.
  induction entries as [|[k0 v0] rest IH]; intros r m r' e m' H.
  - discriminate.
  - destruct (ensureLoop_step k0 v0 rest r m)
      as [(e0 & _ & _ & E)|[(e0 & _ & _ & E)|[(_ & E)|(_ & E)]]];
      rewrite E in H.
    + now injection H as <- _ _.
    + now injection H as <- _ _.
    + exact (IH _ _ _ _ _ H).
    + exact (IH _ _ _ _ _ H).
Qed.

Hypothesis reads : forall key, getErr flt key = None.

Lemma GetStringValue_reads (m : Machine) (key : string) :
  (GetStringValue flt m key).1 = regRead m key.
Proof.
  unfold GetStringValue, regRead. rewrite reads.
  now destruct (registry m !! key).
Qed.

Lemma regRead_registry (m m' : Machine) (key : string) :
  registry m' !! key = registry m !! key -> regRead m' key = regRead m key.
Proof. unfold regRead. now intros ->. Qed.

(** After a run without an error every entry reads as expected. *)
Lemma ensureLoop_post (entries : list (string * string)) :
  NoDup (map fst entries) ->
  forall r m r' m',
  ensureLoop flt entries r m = (r', None, m') ->
  forall key v, In (key, v) entries -> regRead m' key = v.
Proof.
  induction entries as [|[k0 v0] rest IH]; intros Hnd r m r' m' H key v Hin.
  - destruct Hin.
  - cbn in Hnd. apply NoDup_cons in Hnd as [Hfresh Hnd].
    assert (Hhead : forall r1 m1 m2,
              ensureLoop flt rest r1 m1 = (r', None, m2) ->
              regRead m2 k0 = regRead m1 k0).
    { intros r1 m1 m2 E.
      destruct (ensureLoop_registry rest _ _ _ _ _ E k0) as [Hk|(v' & Hv' & _)].
      - now apply regRead_registry.
      - exfalso. apply Hfresh. apply list_elem_of_In.
        apply (in_map fst) in Hv'. exact Hv'. }
    destruct (ensureLoop_step k0 v0 rest r m)
      as [(e0 & _ & _ & E)|[(e0 & _ & _ & E)|[(_ & E)|(Hsame & E)]]];
      rewrite E in H; try discriminate.
    + destruct Hin as [[= <- <-]|Hin].
      * rewrite (Hhead _ _ _ H). unfold regRead. cbn.
        now rewrite lookup_insert_eq.
      * exact (IH Hnd _ _ _ _ H key v Hin).
    + destruct Hin as [[= <- <-]|Hin].
      * rewrite (Hhead _ _ _ H). now rewrite <- GetStringValue_reads.
      * exact (IH Hnd _ _ _ _ H key v Hin).
Qed.

(** The restart flag of a run without an error: set before, or some entry
    did not read as expected. *)
Lemma ensureLoop_flag (entries : list (string * string)) :
  forall r m r' m',
  ensureLoop flt entries r m = (r', None, m') ->
  r' = r || existsb (fun kv => negb (String.eqb (regRead m kv.1) kv.2)) entries.
Proof.
  induction entries as [|[k0 v0] rest IH]; intros r m r' m' H.
  - injection H as <- _. now rewrite orb_false_r.
  - cbn [existsb fst snd].
    destruct (ensureLoop_step k0 v0 rest r m)
      as [(e0 & _ & _ & E)|[(e0 & _ & _ & E)|[(Hne & E)|(Hsame & E)]]];
      rewrite E in H; try discriminate.
    + rewrite GetStringValue_reads in Hne.
      apply String.eqb_neq in Hne. rewrite Hne. cbn.
      rewrite (IH _ _ _ _ H). now rewrite orb_true_r.
    + rewrite GetStringValue_reads in Hsame.
      apply String.eqb_eq in Hsame. rewrite Hsame. cbn.
      exact (IH _ _ _ _ H).
Qed.

(** When every entry reads as expected the loop writes nothing. *)
Lemma ensureLoop_settled (entries : list (string * string)) (r : bool) (m : Machine) :
  (forall key v, In (key, v) entries -> regRead m key = v) ->
  ensureLoop flt entries r m = (r, None, m).
Proof.
  induction entries as [|[k0 v0] rest IH]; intros Hall; [reflexivity|].
  destruct (ensureLoop_step k0 v0 rest r m)
    as [(e0 & He & _)|[(e0 & _ & Hne & _)|[(Hne & _)|(_ & E)]]].
  - now rewrite reads in He.
  - exfalso. apply Hne. rewrite GetStringValue_reads. apply Hall. now left.
  - exfalso. apply Hne. rewrite GetStringValue_reads. apply Hall. now left.
  - rewrite E. apply IH. intros key v Hin. apply Hall. now right.
Qed.

End Loop.

Lemma rangeOrder_In (envVars : gmap string string)
    (entries : list (string * string)) :
  rangeOrder envVars entries ->
  forall key v, In (key, v) entries <-> envVars !! key = Some v.
Proof.
  intros Hp key v. rewrite <- list_elem_of_In.
  unfold rangeOrder in Hp. rewrite Hp. apply elem_of_map_to_list.
Qed.

Lemma rangeOrder_NoDup (envVars : gmap string string)
    (entries : list (string * string)) :
  rangeOrder envVars entries -> NoDup (map fst entries).
Proof.
  intros Hp. change (NoDup (fst <$> entries)).
  unfold rangeOrder in Hp. rewrite Hp. apply NoDup_fst_map_to_list.
Qed.

Lemma rangeOrder_map_to_list (envVars : gmap string string) :
  rangeOrder envVars (map_to_list envVars).
Proof. unfold rangeOrder. reflexivity. Qed.

(** X13. When the reads of the registry do not fail and the call returns a nil
    error, every variable of [envVars] reads as expected afterwards, a
    variable expected to be empty counting as set when it is absent; and a
    restart is required exactly when some variable did not read as expected
    before. This holds for every order of the range over the map. *)
Theorem EnsureVars_converges (flt : RegistryFaults) (m : Machine)
    (envVars : gmap string string) (entries : list (string * string))
    (restartRequired : bool) (m' : Machine) :
  (forall key, getErr flt key = None) ->
  rangeOrder envVars entries ->
  ensureVarsInOrder flt m entries = (restartRequired, None, m') ->
  (forall key v, envVars !! key = Some v -> regRead m' key = v) /\
  (restartRequired = true <->
   exists key v, envVars !! key = Some v /\ regRead m key <> v).
Proof.
  intros Hreads Hord. unfold ensureVarsInOrder.
  destruct (openKeyErr flt); [discriminate|].
  destruct (ensureLoop flt entries false m) as [[r e] m1] eqn:E.
  intros [= -> -> <-].
  assert (Hreg : forall key,
            regRead (match closeErr flt with
                     | Some _ => klogLine "could not close key" m1
                     | None => m1
                     end) key = regRead m1 key).
  { intros key. now destruct (closeErr flt). }
  split.
  - intros key v Hkv. rewrite Hreg.
    apply (ensureLoop_post flt Hreads entries (rangeOrder_NoDup _ _ Hord) _ _ _ _ E).
    now apply (rangeOrder_In _ _ Hord).
  - rewrite (ensureLoop_flag flt Hreads entries _ _ _ _ E). cbn [orb].
    rewrite existsb_exists. split.
    + intros ([key v] & Hin & Hne). cbn in Hne.
      exists key, v. split; [now apply (rangeOrder_In _ _ Hord)|].
      apply negb_true_iff in Hne. now apply String.eqb_neq.
    + intros (key & v & Hkv & Hne). exists (key, v).
      split; [now apply (rangeOrder_In _ _ Hord)|].
      cbn. apply negb_true_iff. now apply String.eqb_neq.
Qed.

(** X14. A call never touches a variable outside [envVars]: whatever the
    registry answers, every value is afterwards as it was or as [envVars]
    expects it. An error comes with a restart flag that is false, also when
    variables have been written before it, and a key that cannot be opened
    leaves the host as it was. *)
Theorem EnsureVars_frame (flt : RegistryFaults) (m : Machine)
    (envVars : gmap string string) (entries : list (string * string)) :
  rangeOrder envVars entries ->
  let res := ensureVarsInOrder flt m entries in
  (forall key,
     registry res.2 !! key = registry m !! key \/
     exists v, envVars !! key = Some v /\ registry res.2 !! key = Some v) /\
  (forall key, envVars !! key = None -> registry res.2 !! key = registry m !! key) /\
  (res.1.2 <> None -> res.1.1 = false) /\
  (openKeyErr flt <> None -> res.2 = m).
Proof.
  intros Hord. cbn zeta. unfold ensureVarsInOrder.
  destruct (openKeyErr flt) as [eo|].
  - cbn. repeat split; auto.
  - destruct (ensureLoop flt entries false m) as [[r e] m1] eqn:E. cbn [fst snd].
    assert (Hreg : registry (match closeErr flt with
                             | Some _ => klogLine "could not close key" m1
                             | None => m1
                             end) = registry m1) by now destruct (closeErr flt).
    rewrite Hreg.
    assert (Hall : forall key,
              registry m1 !! key = registry m !! key \/
              exists v, envVars !! key = Some v /\ registry m1 !! key = Some v).
    { intros key.
      destruct (ensureLoop_registry flt entries _ _ _ _ _ E key) as [?|(v & Hin & ?)];
        [now left|].
      right. exists v. split; [now apply (rangeOrder_In _ _ Hord)|assumption]. }
    split; [exact Hall|]. split; [|split].
    + intros key Hnone. destruct (Hall key) as [?|(v & Hv & _)]; [assumption|congruence].
    + intros He. destruct e as [e|]; [|congruence].
      exact (ensureLoop_error flt entries _ _ _ _ _ E).
    + congruence.
Qed.

(** X15. A second call after one that returned a nil error finds nothing to do:
    when the reads of the registry do not fail it returns that no restart is
    required and a nil error, and writes no value, whatever the registry
    would answer to a write. *)
Theorem EnsureVars_idempotent (flt flt' : RegistryFaults) (m : Machine)
    (envVars : gmap string string) (entries entries' : list (string * string))
    (restartRequired : bool) (m' : Machine) :
  (forall key, getErr flt key = None) ->
  (forall key, getErr flt' key = None) ->
  openKeyErr flt' = None ->
  rangeOrder envVars entries -> rangeOrder envVars entries' ->
  ensureVarsInOrder flt m entries = (restartRequired, None, m') ->
  (ensureVarsInOrder flt' m' entries').1 = (false, None) /\
  registry (ensureVarsInOrder flt' m' entries').2 = registry m'.
Proof.
  intros Hreads Hreads' Hopen Hord Hord' H.
  pose proof (ensureLoop_post flt Hreads entries (rangeOrder_NoDup _ _ Hord)) as Hpost.
  unfold ensureVarsInOrder in H |- *. rewrite Hopen.
  destruct (openKeyErr flt); [discriminate|].
  destruct (ensureLoop flt entries false m) as [[r e] m1] eqn:E.
  injection H as -> -> <-.
  rewrite (ensureLoop_settled flt' Hreads' entries').
  - cbn. split; [reflexivity|]. now destruct (closeErr flt'), (closeErr flt).
  - intros key v Hin.
    apply (rangeOrder_In _ _ Hord') in Hin. apply (rangeOrder_In _ _ Hord) in Hin.
    rewrite <- (Hpost _ _ _ _ E key v Hin). now destruct (closeErr flt).
Qed.

(** *** Scenario: a proxy is configured on a host without one *)

Definition noFaults : RegistryFaults :=
  mkFaults None (fun _ => None) (fun _ => None) None.

Definition proxyVars : gmap string string :=
  {[ "HTTP_PROXY" := "http://proxy:3128"; "NO_PROXY" := "" ]}.

Definition freshHost : Machine := mkMachine ∅ [].

Lemma EnsureVars_converges_witness :
  regRead (EnsureVarsAreUpToDate noFaults freshHost proxyVars).2 "HTTP_PROXY"
    = "http://proxy:3128" /\
  (EnsureVarsAreUpToDate noFaults freshHost proxyVars).1.1 = true.
Proof.
  destruct (EnsureVars_converges noFaults freshHost proxyVars (map_to_list proxyVars)
              (EnsureVarsAreUpToDate noFaults freshHost proxyVars).1.1
              (EnsureVarsAreUpToDate noFaults freshHost proxyVars).2)
    as [Hpost Hflag].
  - reflexivity.
  - apply rangeOrder_map_to_list.
  - vm_compute. reflexivity.
  - split.
    + apply Hpost. vm_compute. reflexivity.
    + apply Hflag. exists "HTTP_PROXY", "http://proxy:3128".
      split; [vm_compute; reflexivity|]. vm_compute. discriminate.
Defined.

Lemma EnsureVars_frame_witness :
  registry (EnsureVarsAreUpToDate noFaults freshHost proxyVars).2 !! "Path"
  = registry freshHost !! "Path".
Proof.
  apply (proj1 (proj2 (EnsureVars_frame noFaults freshHost proxyVars
                         (map_to_list proxyVars)
                         (rangeOrder_map_to_list proxyVars)))).
  vm_compute. reflexivity.
Defined.

Lemma EnsureVars_idempotent_witness :
  (EnsureVarsAreUpToDate noFaults
     (EnsureVarsAreUpToDate noFaults freshHost proxyVars).2 proxyVars).1
  = (false, None).
Proof.
  apply (EnsureVars_idempotent noFaults noFaults freshHost proxyVars
           (map_to_list proxyVars) (map_to_list proxyVars)
           (EnsureVarsAreUpToDate noFaults freshHost proxyVars).1.1
           (EnsureVarsAreUpToDate noFaults freshHost proxyVars).2).
  - reflexivity.
  - reflexivity.
  - reflexivity.
  - apply rangeOrder_map_to_list.
  - apply rangeOrder_map_to_list.
  - vm_compute. reflexivity.
Defined.

End Envvar.

(** ** The end-to-end test of the kubelet CA rotation *)

Module E2E.

Section WaitForCA.

(** [strings.TrimSpace], [certificates.GetCAsFromConfigMap] and the
    constants [certificates.CABundleKey], [windows.GetK8sDir()] and
    [nodeconfig.KubeletClientCAFilename]. *)
Variable TrimSpace : string -> string.
Variable GetCAsFromConfigMap : gmap string string -> string -> string + error.
Variable CABundleKey : string.
Variable K8sDir : string.
Variable KubeletClientCAFilename : string.

(** The cluster and the node during the wait: what the n-th SSH job that
    runs a command on an address returns, and what the n-th read of the
    ConfigMap of the kubelet client CA returns. *)
Variable runPowerShellSSHJob : nat -> string -> string -> string + error.
Variable getConfigMap : nat -> gmap string string + error.

(** The path of the CA bundle on the node and the command that prints it. *)
Definition caBundlePath : string :=
  K8sDir ++ String backslash KubeletClientCAFilename.

Definition command : string := "Get-Content -Raw -Path " ++ caBundlePath.

(** The condition polled by [waitForKubeletCACertificateInNode]. The state
    is the number of polls made and the lines logged, each by its fixed
    part. *)
Definition caCondition (addr : string) (st : nat * list string)
    : bool * option error * (nat * list string) :=
  let n := st.1 in
  match runPowerShellSSHJob n command addr with
  | inr err => (false, None, (S n, (st.2 ++ ["error fetching CA bundle, retrying"])%list))
  | inl bundleContent =>
      match getConfigMap n with
      | inr err =>
          (false, Some (Errorf_w "error getting kubelet client CA ConfigMap" err),
           (S n, st.2))
      | inl cm =>
          match GetCAsFromConfigMap cm CABundleKey with
          | inr err =>
              (false, Some (Errorf_w "error parsing CA bundle from ConfigMap" err),
               (S n, st.2))
          | inl kubeletCABytes =>
              let kubeletCAString := TrimSpace kubeletCABytes in
              let found := Windows.Contains bundleContent kubeletCAString in
              (found, None,
               (S n, if found then st.2
                     else (st.2 ++ ["kubelet CA certificate not found, retrying"])%list))
          end
      end
  end.

(** [wait.Poll(interval, timeout, condition)] makes no call at once: it
    calls [condition] once per tick until the timeout. *)
Definition Poll {S : Type} (condition : S -> bool * option error * S)
    (ticks : nat) (s : S) : option error * S :=
  Windows.pollTicks condition ticks s.

(** [waitForKubeletCACertificateInNode] waits for the kubelet CA certificate
    to be present in the CA bundle file of the node. [address] is the result
    of [controllers.GetAddress] on the addresses of the node. *)
Definition waitForKubeletCACertificateInNode (address : string + error)
    (ticks : nat) (st : nat * list string) : option error * (nat * list string) :=
  match address with
  | inr err => (Some err, st)
  | inl addr => Poll (caCondition addr) ticks st
  end.

(** What a poll comes to: the job failed or the bundle of the node lacks the
    CA, so that the wait goes on; the bundle holds the CA; or the ConfigMap
    could not be read or parsed. *)
Inductive Verdict : Type :=
  | Retried
  | Found
  | Aborted (err : error).

Definition verdict (addr : string) (n : nat) : Verdict :=
  match runPowerShellSSHJob n command addr with
  | inr _ => Retried
  | inl bundleContent =>
      match getConfigMap n with
      | inr err => Aborted (Errorf_w "error getting kubelet client CA ConfigMap" err)
      | inl cm =>
          match GetCAsFromConfigMap cm CABundleKey with
          | inr err => Aborted (Errorf_w "error parsing CA bundle from ConfigMap" err)
          | inl ca =>
              if Windows.Contains bundleContent (TrimSpace ca) then Found else Retried
          end
      end
  end.

Lemma caCondition_verdict (addr : string) (n : nat) (log : list string) :
  exists log',
    caCondition addr (n, log)
    = (match verdict addr n with Found => true | _ => false end,
       match verdict addr n with Aborted e => Some e | _ => None end,
       (S n, log')).
Proof.
  unfold caCondition, verdict. cbn [fst snd].
  destruct (runPowerShellSSHJob n command addr) as [content|e]; [|eauto].
  destruct (getConfigMap n) as [cm|e]; [|eauto].
  destruct (GetCAsFromConfigMap cm CABundleKey) as [ca|e]; [|eauto].
  destruct (Windows.Contains content (TrimSpace ca)); eauto.
Qed.

Lemma Poll_retries (addr : string) (k : nat) :
  forall ticks n log,
  (forall j, j < k -> verdict addr (n + j) = Retried) ->
  exists log',
    Poll (caCondition addr) (k + ticks) (n, log)
    = Poll (caCondition addr) ticks (n + k, log').
Proof.
  unfold Poll. induction k as [|k IH]; intros ticks n log Hk.
  - exists log. now rewrite Nat.add_0_r.
  - destruct (caCondition_verdict addr n log) as (log1 & E1).
    assert (H0 : verdict addr n = Retried).
    { rewrite <- (Nat.add_0_r n). apply Hk. lia. }
    rewrite H0 in E1.
    destruct (IH ticks (S n) log1) as (log' & E).
    { intros j Hj. replace (S n + j) with (n + S j) by lia. apply Hk. lia. }
    exists log'. cbn [Nat.add Windows.pollTicks]. rewrite E1.
    rewrite E. f_equal. f_equal. lia.
Qed.

(** X16. The wait is decided by the first poll that is not retried. A failing
    SSH job and a bundle without the CA are retried until the timeout. A poll
    that finds the CA ends the wait with a nil error. A ConfigMap that
    cannot be read or parsed ends the wait at once with that error, and no
    later poll is made. [polls] counts the polls made. *)
Theorem waitForKubeletCA_outcome (addr : string) (ticks : nat)
    (log : list string) :
  let r := waitForKubeletCACertificateInNode (inl addr) ticks (0, log) in
  let polls := r.2.1 in
  (forall k, k < ticks ->
     (forall j, j < k -> verdict addr j = Retried) ->
     verdict addr k = Found -> r.1 = None /\ polls = k + 1) /\
  (forall k err, k < ticks ->
     (forall j, j < k -> verdict addr j = Retried) ->
     verdict addr k = Aborted err -> r.1 = Some err /\ polls = k + 1) /\
  ((forall j, j < ticks -> verdict addr j = Retried) ->
     r.1 = Some ErrWaitTimeout /\ polls = ticks).
Proof.
  cbn zeta. unfold waitForKubeletCACertificateInNode.
  split; [|split].
  - intros k Hk Hbefore Hat.
    destruct (Poll_retries addr k (S (ticks - S k)) 0 log) as (log1 & E).
    { intros j Hj. now apply Hbefore. }
    replace (k + S (ticks - S k)) with ticks in E by lia. rewrite E.
    unfold Poll. cbn [Windows.pollTicks Nat.add].
    destruct (caCondition_verdict addr k log1) as (log2 & E2).
    rewrite E2, Hat. cbn. split; [reflexivity|lia].
  - intros k err Hk Hbefore Hat.
    destruct (Poll_retries addr k (S (ticks - S k)) 0 log) as (log1 & E).
    { intros j Hj. now apply Hbefore. }
    replace (k + S (ticks - S k)) with ticks in E by lia. rewrite E.
    unfold Poll. cbn [Windows.pollTicks Nat.add].
    destruct (caCondition_verdict addr k log1) as (log2 & E2).
    rewrite E2, Hat. cbn. split; [reflexivity|lia].
  - intros Hall.
    destruct (Poll_retries addr ticks 0 0 log) as (log1 & E).
    { intros j Hj. now apply Hall. }
    rewrite Nat.add_0_r in E. rewrite E. unfold Poll. cbn. split; reflexivity.
Qed.

End WaitForCA.

(** *** Scenario: the job fails once, then the bundle lacks the new CA once *)

Definition exampleJobs : nat -> string -> string -> string + error :=
  fun n _ _ =>
    match n with
    | 0 => inr (errors_New "job failed")
    | 1 => inl "-----CERT-A-----"
    | _ => inl "-----CERT-A----------CERT-B-----"
    end.

Definition exampleConfigMaps : nat -> gmap string string + error :=
  fun _ => inl {[ "ca-bundle.crt" := "-----CERT-B-----" ]}.

Definition exampleGetCAs (cm : gmap string string) (key : string) : string + error :=
  match cm !! key with
  | Some ca => inl ca
  | None => inr (errors_New "key not found in ConfigMap")
  end.

(** The bundle of the scenario has no space around it. *)
Definition exampleTrim (ca : string) : string := ca.

Lemma waitForKubeletCA_outcome_witness :
  (waitForKubeletCACertificateInNode exampleTrim exampleGetCAs "ca-bundle.crt"
     "C:\k" "kubelet-ca.crt" exampleJobs exampleConfigMaps
     (inl "10.0.0.5") 5 (0, [])).1 = None /\
  (waitForKubeletCACertificateInNode exampleTrim exampleGetCAs "ca-bundle.crt"
     "C:\k" "kubelet-ca.crt" exampleJobs exampleConfigMaps
     (inl "10.0.0.5") 5 (0, [])).2.1 = 3.
Proof.
  apply (proj1 (waitForKubeletCA_outcome exampleTrim exampleGetCAs "ca-bundle.crt"
                  "C:\k" "kubelet-ca.crt" exampleJobs exampleConfigMaps
                  "10.0.0.5" 5 []) 2).
  - lia.
  - intros [|[|j]] Hj; [vm_compute; reflexivity|vm_compute; reflexivity|lia].
  - vm_compute. reflexivity.
Defined.

End E2E.

(** ** The vSphere provider of the end-to-end tests: storage *)

Module VSphere.

Definition storageClassName : string := "ntfs".

(** [storage.StorageClass], by the fields the provider sets. *)
Record storage_StorageClass : Type := mkStorageClass {
  scName : string;
  Provisioner : string;
  Parameters : gmap string string;
  ReclaimPolicy : option string;
  VolumeBindingMode : option string
}.

(** [core.PersistentVolumeClaim], by the fields the provider sets and the
    name the API server generates. *)
Record core_PersistentVolumeClaim : Type := mkClaim {
  pvcName : string;
  GenerateName : string;
  Namespace : string;
  AccessModes : list string;
  StorageRequest : string;
  StorageClassName : option string
}.

(** The objects of the cluster the provider reads and creates. *)
Record Cluster : Type := mkCluster {
  storageClasses : list storage_StorageClass;
  claims : list core_PersistentVolumeClaim
}.

(** The errors the API server answers with during one call, if any, and the
    suffix it appends to a generated name. *)
Record ApiFaults : Type := mkApiFaults {
  getClassErr : option error;
  createClassErr : option error;
  createClaimErr : option error;
  nameSuffix : string
}.

Section Storage.

(** [k8sapierrors.IsNotFound] and the errors the API server answers a read
    of a missing object and a creation of an existing one with. *)
Variable IsNotFound : error -> bool.
Variable errNotFound : error.
Variable errAlreadyExists : error.

Definition findClass (cl : Cluster) (name : string) : option storage_StorageClass :=
  List.find (fun sc => String.eqb (scName sc) name) (storageClasses cl).

(** [client.StorageV1().StorageClasses().Get(ctx, name, opts)]. *)
Definition getClass (flt : ApiFaults) (cl : Cluster) (name : string)
    : storage_StorageClass + error :=
  match getClassErr flt with
  | Some e => inr e
  | None =>
      match findClass cl name with
      | Some sc => inl sc
      | None => inr errNotFound
      end
  end.

(** [client.StorageV1().StorageClasses().Create(ctx, sc, opts)]. *)
Definition createClass (flt : ApiFaults) (cl : Cluster) (sc : storage_StorageClass)
    : (storage_StorageClass + error) * Cluster :=
  match createClassErr flt with
  | Some e => (inr e, cl)
  | None =>
      match findClass cl (scName sc) with
      | Some _ => (inr errAlreadyExists, cl)
      | None => (inl sc, mkCluster (storageClasses cl ++ [sc]) (claims cl))
      end
  end.

(** [client.CoreV1().PersistentVolumeClaims(namespace).Create(ctx, pvc,
    opts)]: the server names the claim after its [GenerateName]. *)
Definition createClaim (flt : ApiFaults) (cl : Cluster) (namespace : string)
    (pvc : core_PersistentVolumeClaim)
    : (core_PersistentVolumeClaim + error) * Cluster :=
  match createClaimErr flt with
  | Some e => (inr e, cl)
  | None =>
      let created :=
        mkClaim (GenerateName pvc ++ nameSuffix flt) (GenerateName pvc) namespace
                (AccessModes pvc) (StorageRequest pvc) (StorageClassName pvc) in
      (inl created, mkCluster (storageClasses cl) (claims cl ++ [created]))
  end.

(** The class [ensureStorageClass] creates. *)
Definition ntfsClass : storage_StorageClass :=
  {| scName := storageClassName;
     Provisioner := "kubernetes.io/vsphere-volume";
     Parameters := {[ "fstype" := "ntfs" ]};
     ReclaimPolicy := Some "Delete";
     VolumeBindingMode := Some "Immediate" |}.

(** [ensureStorageClass] ensures a vsphere-volume NTFS storage class exists
    for use with in-tree storage. *)
Definition ensureStorageClass (flt : ApiFaults) (cl : Cluster)
    : (storage_StorageClass + error) * Cluster :=
  match getClass flt cl storageClassName with
  | inl sc => (inl sc, cl)
  | inr err =>
      if negb (IsNotFound err)
      then (inr (Errorf_w "error getting storage class 'ntfs'" err), cl)
      else createClass flt cl ntfsClass
  end.

(** [CreatePVC] creates a PVC for a dynamically provisioned volume. *)
Definition CreatePVC (flt : ApiFaults) (cl : Cluster) (namespace : string)
    : (core_PersistentVolumeClaim + error) * Cluster :=
  match ensureStorageClass flt cl with
  | (inr err, cl1) =>
      (inr (Errorf_w "unable to ensure a usable StorageClass is created" err), cl1)
  | (inl sc, cl1) =>
      let pvcSpec :=
        mkClaim "" (storageClassName ++ "-") ""
                ["ReadWriteOnce"] "512Mi" (Some (scName sc)) in
      createClaim flt cl1 namespace pvcSpec
  end.

Lemma findClass_name (cl : Cluster) (name : string) (sc : storage_StorageClass) :
  findClass cl name = Some sc -> scName sc = name /\ In sc (storageClasses cl).
Proof.
  unfold findClass. intros H. apply find_some in H as [Hin Heq].
  split; [now apply String.eqb_eq|assumption].
Qed.

Lemma findClass_added (cl : Cluster) (sc : storage_StorageClass) :
  findClass cl (scName sc) = None ->
  findClass (mkCluster (storageClasses cl ++ [sc]) (claims cl)) (scName sc) = Some sc.
Proof.
  unfold findClass. cbn. induction (storageClasses cl) as [|x l IH]; cbn.
  - now rewrite String.eqb_refl.
  - destruct (String.eqb (scName x) (scName sc)); [discriminate|exact IH].
Qed.

Lemma ensureStorageClass_found (flt : ApiFaults) (cl : Cluster)
    (sc : storage_StorageClass) :
  getClassErr flt = None -> findClass cl storageClassName = Some sc ->
  ensureStorageClass flt cl = (inl sc, cl).
Proof.
  intros Hf Hsc. unfold ensureStorageClass, getClass. now rewrite Hf, Hsc.
Qed.

(** A class returned by [ensureStorageClass] is named ntfs and is the one a
    read finds afterwards; no claim is touched. *)
Lemma ensureStorageClass_ok (flt : ApiFaults) (cl : Cluster)
    (sc : storage_StorageClass) (cl' : Cluster) :
  ensureStorageClass flt cl = (inl sc, cl') ->
  scName sc = storageClassName /\
  findClass cl' storageClassName = Some sc /\
  claims cl' = claims cl.
Proof.
  unfold ensureStorageClass, getClass. intros H.
  assert (Hcreate : createClass flt cl ntfsClass = (inl sc, cl') ->
            scName sc = storageClassName /\
            findClass cl' storageClassName = Some sc /\ claims cl' = claims cl).
  { unfold createClass. destruct (createClassErr flt); [discriminate|].
    destruct (findClass cl (scName ntfsClass)) eqn:Ef; [discriminate|].
    intros [= <- <-]. split; [reflexivity|]. split; [|reflexivity].
    exact (findClass_added cl ntfsClass Ef). }
  destruct (getClassErr flt) as [e|].
  - destruct (negb (IsNotFound e)); [discriminate|]. now apply Hcreate.
  - destruct (findClass cl storageClassName) as [sc0|] eqn:Ef.
    + injection H as <- <-.
      split; [exact (proj1 (findClass_name _ _ _ Ef))|]. now split.
    + destruct (negb (IsNotFound errNotFound)); [discriminate|]. now apply Hcreate.
Qed.

(** An error of [ensureStorageClass] leaves the cluster as it was. *)
Lemma ensureStorageClass_error (flt : ApiFaults) (cl : Cluster)
    (err : error) (cl' : Cluster) :
  ensureStorageClass flt cl = (inr err, cl') -> cl' = cl.
Proof.
  unfold ensureStorageClass. intros H.
  destruct (getClass flt cl storageClassName) as [sc|e]; [discriminate|].
  destruct (negb (IsNotFound e)); [now injection H as _ <-|].
  unfold createClass in H. destruct (createClassErr flt); [now injection H as _ <-|].
  destruct (findClass cl (scName ntfsClass)); [now injection H as _ <-|discriminate].
Qed.

Hypothesis notFound_is : IsNotFound errNotFound = true.

(** X17. [ensureStorageClass] gets or creates. When the reads of the API server
    do not fail: a class named ntfs that exists is returned as it is,
    whatever its provisioner, and the cluster is left as it was; when there
    is none and the creation succeeds, the NTFS class of the vSphere volume
    provisioner is added and returned. In both cases the class returned is
    the one a read finds afterwards, so that a second call returns it again
    and changes nothing. *)
Theorem ensureStorageClass_get_or_create (flt flt' : ApiFaults) (cl : Cluster) :
  getClassErr flt = None -> getClassErr flt' = None ->
  (forall sc, findClass cl storageClassName = Some sc ->
     ensureStorageClass flt cl = (inl sc, cl)) /\
  (findClass cl storageClassName = None -> createClassErr flt = None ->
     ensureStorageClass flt cl
     = (inl ntfsClass, mkCluster (storageClasses cl ++ [ntfsClass]) (claims cl))) /\
  (forall sc cl', ensureStorageClass flt cl = (inl sc, cl') ->
     scName sc = storageClassName /\
     findClass cl' storageClassName = Some sc /\
     ensureStorageClass flt' cl' = (inl sc, cl')).
Proof.
  intros Hget Hget'.
  split; [intros sc; now apply ensureStorageClass_found|]. split.
  - intros Hnone Hcreate. unfold ensureStorageClass, getClass, createClass.
    rewrite Hget, Hnone, notFound_is, Hcreate. cbn [negb scName ntfsClass].
    now rewrite Hnone.
  - intros sc cl' H.
    destruct (ensureStorageClass_ok flt cl sc cl' H) as (Hname & Hfind & _).
    split; [exact Hname|]. split; [exact Hfind|].
    now apply ensureStorageClass_found.
Qed.

(** X18. [CreatePVC] creates no claim unless a storage class is ensured: an error
    of [ensureStorageClass] is returned wrapped and the cluster is left as
    it was. A claim that is created is named after the prefix ntfs-, lies in
    the given namespace, is the only claim added, and refers to a storage
    class named ntfs that exists in the cluster. *)
Theorem CreatePVC_claim (flt : ApiFaults) (cl : Cluster) (namespace : string) :
  (forall err cl1, ensureStorageClass flt cl = (inr err, cl1) ->
     CreatePVC flt cl namespace
     = (inr (Errorf_w "unable to ensure a usable StorageClass is created" err), cl)) /\
  (forall pvc cl', CreatePVC flt cl namespace = (inl pvc, cl') ->
     pvcName pvc = "ntfs-" ++ nameSuffix flt /\
     Namespace pvc = namespace /\
     StorageClassName pvc = Some storageClassName /\
     (exists sc, findClass cl' storageClassName = Some sc) /\
     claims cl' = (claims cl ++ [pvc])%list).
Proof.
  split.
  - intros err cl1 H. unfold CreatePVC. rewrite H.
    now rewrite (ensureStorageClass_error flt cl err cl1 H).
  - intros pvc cl' H. unfold CreatePVC in H.
    destruct (ensureStorageClass flt cl) as [[sc|e] cl1] eqn:E; [|discriminate].
    destruct (ensureStorageClass_ok flt cl sc cl1 E) as (Hname & Hfind & Hclaims).
    unfold createClaim in H. destruct (createClaimErr flt); [discriminate|].
    injection H as <- <-. cbn. rewrite Hname, Hclaims.
    repeat split. eauto.
Qed.

End Storage.

(** *** Scenario: a cluster without storage classes *)

Definition exampleNotFound : error :=
  errors_New "storageclasses.storage.k8s.io ntfs not found".

Definition exampleAlreadyExists : error :=
  errors_New "storageclasses.storage.k8s.io ntfs already exists".

Definition exampleIsNotFound (e : error) : bool := error_eqb e exampleNotFound.

Definition healthyApi : ApiFaults := mkApiFaults None None None "x7k2p".

Definition emptyCluster : Cluster := mkCluster [] [].

Lemma ensureStorageClass_get_or_create_witness :
  ensureStorageClass exampleIsNotFound exampleNotFound exampleAlreadyExists
    healthyApi emptyCluster
  = (inl ntfsClass, mkCluster [ntfsClass] []) /\
  ensureStorageClass exampleIsNotFound exampleNotFound exampleAlreadyExists
    healthyApi (mkCluster [ntfsClass] [])
  = (inl ntfsClass, mkCluster [ntfsClass] []).
Proof.
  pose proof (ensureStorageClass_get_or_create exampleIsNotFound exampleNotFound
                exampleAlreadyExists eq_refl healthyApi healthyApi emptyCluster
                eq_refl eq_refl) as (_ & Hcreate & Hagain).
  split.
  - apply Hcreate; reflexivity.
  - apply (Hagain ntfsClass (mkCluster [ntfsClass] [])).
    apply Hcreate; reflexivity.
Defined.

End VSphere.
